(** * Compressed quadtree (include/compressed_quadtree.h)

    A shallow embedding of [CompressedQuadtree<Point>]: the [Node] structure,
    the recursive builder [worker] with its path compression, the constructor,
    the region lower bound [min_pt_dist_to_node] and the best-first search
    [knn], followed by the properties of the specification that concern
    them.

    Conventions of the embedding.
    - A C++ [double] is an exact rational ([Q]); rounding, overflow and NaN are
      not modelled.  [std::numeric_limits<double>::max()] is the rational
      [DBL_MAX].
    - A [Point] is its coordinate vector; [pt[d]] is [coord pt d].  A
      [Point *] that may be null is an [option Point]; the points of the
      caller's array are never modified, so a pointer into it is modelled by
      the point it designates.
    - [Node **nodes] is [option (list (option Node))]: [None] is the null
      array, a [None] entry is a null child slot.  The array has [nnodes]
      slots ([1 << dim], taken as [2 ^ dim]).
    - [double *range] is the function from indices to the values stored
      there.
    - The stop predicate [EndBuildFn] is a pure function of the node and the
      depth.
    - The recursion of [worker] and the loop of [knn] are bounded by a fuel
      argument; running out of fuel is an outcome of its own.
    - [std::push_heap] and [std::pop_heap] are library code: they are an
      interface ([HeapAlgorithms]) and the contract of the C++ standard is
      the hypothesis [heap_contract].
    - [min_pt_dist_to_node] compares its local [dist] on dimensions where no
      branch assigned it; that indeterminate content is the explicit
      parameter [uninit].
    - Dereferencing a null [node->pt] and [qr.back()] on an empty list are
      outcomes of their own ([Undefined]). *)

From Stdlib Require Import QArith Qminmax Lqa Lia List Bool Arith PeanoNat.
From Stdlib Require Import Permutation Sorted.
From AAC_tactics Require Import AAC.
From AAC_tactics Require Instances.
Import Instances.Lists.
Import ListNotations.

Open Scope Q_scope.

(** ** Doubles *)

(** [a < b] on doubles, as a boolean. *)
Definition Qltb (a b : Q) : bool := negb (Qle_bool b a).

(** [std::numeric_limits<double>::max()] = (2^53 - 1) * 2^971. *)
Definition DBL_MAX : Q := inject_Z ((2 ^ 53 - 1) * 2 ^ 971).

(** ** Points and nodes *)

Definition Point : Type := list Q.

(** [pt[d]] *)
Definition coord (p : Point) (d : nat) : Q := nth d p 0.

(** [struct Node]: children array, midpoint, half side length, stored point. *)
#[local] Set Warnings "-register-all".
Inductive Node : Type :=
  mkNode { nodes : option (list (option Node));
           mid : Point;
           radius : Q;
           pt : option Point }.

(** [Node()] followed by the copy of [mid] and [radius] at the head of
    [worker]: null children, null point. *)
Definition new_Node (dim : nat) (m : Point) (r : Q) : Node :=
  mkNode None (map (coord m) (seq 0 dim)) r None.

(** [Node::in_node] *)
Definition locate_eps : Q := 1 # 1000.

Definition in_node (node : Node) (p : Point) (dim : nat) : bool :=
  forallb (fun d =>
             negb (Qltb locate_eps (coord (mid node) d - radius node - coord p d)
                   || Qltb locate_eps (coord p d - coord (mid node) d - radius node)))
          (seq 0 dim).

(** [struct EndBuildFn]: the stop predicate, called with the node under
    construction and its depth. *)
Definition EndBuildFn : Type := Node -> nat -> bool.

(** The default [EndBuildFn::operator()]. *)
Definition default_fn : EndBuildFn := fun _ _ => false.

(** ** Traversals of a tree *)

Definition present {A} (l : list (option A)) : list A :=
  flat_map (fun o => match o with Some a => [a] | None => [] end) l.

(** All nodes of a tree, root first. *)
Fixpoint subnodes (t : Node) : list Node :=
  match t with
  | mkNode ns _ _ _ =>
      t :: match ns with
           | None => []
           | Some cs =>
               flat_map (fun c => match c with
                                  | Some c => subnodes c
                                  | None => []
                                  end) cs
           end
  end.

(** The points stored at the leaves of a tree, in slot order. *)
Fixpoint points_of (t : Node) : list Point :=
  match t with
  | mkNode ns _ _ p =>
      match ns with
      | None => match p with Some p => [p] | None => [] end
      | Some cs =>
          flat_map (fun c => match c with
                             | Some c => points_of c
                             | None => []
                             end) cs
      end
  end.

(** ** Construction *)

Section Build.

Variable dim : nat.

(** [nnodes(1 << dim)] *)
Definition nnodes : nat := 2 ^ dim.

(** The slot of a point: bit [d] is set when [pt[d] > mid[d]]. *)
Definition orthant (m p : Point) : nat :=
  fold_left (fun n d => if Qltb (coord m d) (coord p d) then (n + 2 ^ d)%nat else n)
            (seq 0 dim) 0%nat.

(** [node_pts[n]]: the points of slot [n], in their order in [pts]. *)
Definition node_pts (m : Point) (pts : list Point) (n : nat) : list Point :=
  filter (fun p => Nat.eqb (orthant m p) n) pts.

(** [new_mid] of slot [n]. *)
Definition new_mid (m : Point) (new_radius : Q) (n : nat) : Point :=
  map (fun d => if Nat.testbit n d
                then coord m d + new_radius
                else coord m d - new_radius) (seq 0 dim).

(** Collects the results of the recursive calls; [None] when one ran out
    of fuel. *)
Fixpoint collect {A} (l : list (option A)) : option (list A) :=
  match l with
  | [] => Some []
  | None :: _ => None
  | Some a :: l =>
      match collect l with
      | Some r => Some (a :: r)
      | None => None
      end
  end.

(** The first non-null child slot. *)
Fixpoint first_present (cs : list (option Node)) : option Node :=
  match cs with
  | [] => None
  | Some c :: _ => Some c
  | None :: cs => first_present cs
  end.

(** [ninteresting]: the number of non-empty buckets. *)
Definition ninteresting (m : Point) (pts : list Point) : nat :=
  length (filter (fun n => negb (Nat.eqb (length (node_pts m pts n)) 0))
                 (seq 0 nnodes)).

Fixpoint worker (fuel : nat) (m : Point) (r : Q) (pts : list Point)
         (fn : EndBuildFn) (depth : nat) : option Node :=
  match fuel with
  | O => None
  | S fuel =>
      let node := new_Node dim m r in
      if Nat.eqb (length pts) 1 then
        let node := mkNode None (mid node) (radius node) (Some (hd [] pts)) in
        let _ := fn node depth in
        Some node
      else if negb (fn node depth) then
        let new_radius := r / 2 in
        match collect
                (map (fun n =>
                        if negb (Nat.eqb (length (node_pts m pts n)) 0) then
                          match worker fuel (new_mid m new_radius n) new_radius
                                       (node_pts m pts n) fn (S depth) with
                          | Some c => Some (Some c)
                          | None => None
                          end
                        else Some None)
                     (seq 0 nnodes)) with
        | None => None
        | Some cs =>
            let node := mkNode (Some cs) (mid node) (radius node) None in
            if Nat.ltb (ninteresting m pts) 2 then
              match first_present cs with
              | Some c => Some c
              | None => Some node
              end
            else Some node
        end
      else Some node
  end.

(** The constructor: midpoint and half side length of the root region,
    read from [range] at [d*dim] and [d*dim + 1]. *)
Definition root_mid (range : nat -> Q) : Point :=
  map (fun d => (range (d * dim)%nat + range (d * dim + 1)%nat) / 2) (seq 0 dim).

Definition root_radius (range : nat -> Q) : Q :=
  fold_left (fun radius d =>
               let side := (range (d * dim + 1)%nat - range (d * dim)%nat) / 2 in
               if Qltb radius side then side else radius)
            (seq 0 dim) 0.

Definition CompressedQuadtree (fuel : nat) (pts : list Point) (range : nat -> Q)
           (fn : EndBuildFn) : option Node :=
  worker fuel (root_mid range) (root_radius range) pts fn 0.

End Build.

(** [double *range] as the memory it points to. *)
Definition range_of (l : list Q) : nat -> Q := fun i => nth i l 0.


(** ** Search *)

(** [struct NodeDistance] *)
Record NodeDistance : Type := mkND { node : Node; distance : Q }.

(** [NodeDistance::operator<] (min-heap): [distance > other.distance]. *)
Definition ND_lt (a b : NodeDistance) : bool := Qltb (distance b) (distance a).

(** [std::is_heap] for [operator<]: no element is less than any of its
    children, the children of position [i] being [2i+1] and [2i+2]. *)
Definition is_heap (v : list NodeDistance) : Prop :=
  forall i a b, (0 < i)%nat ->
                nth_error v ((i - 1) / 2) = Some a -> nth_error v i = Some b ->
                ND_lt a b = false.

(** [std::push_heap] and [std::pop_heap]. *)
Class HeapAlgorithms : Type :=
  { push_heap : list NodeDistance -> list NodeDistance;
    pop_heap : list NodeDistance -> list NodeDistance }.

(** Their contracts: [push_heap] extends the heap [first, last-1) by the
    element at [last-1]; [pop_heap] moves the first element to [last-1]
    and leaves a heap in [first, last-1). *)
Record heap_contract (heap : HeapAlgorithms) : Prop :=
  { push_heap_spec : forall v x,
      is_heap v ->
      is_heap (push_heap (v ++ [x])) /\ Permutation (push_heap (v ++ [x])) (x :: v);
    pop_heap_spec : forall x v,
      is_heap (x :: v) ->
      exists v', pop_heap (x :: v) = v' ++ [x] /\ is_heap v' /\ Permutation v' v }.

(** How a run of the search loop ends. *)
Inductive exit : Type :=
| QueueEmpty   (* [while (!pq.empty())] fails *)
| Break.       (* the [break] of the k-th distance test *)

(** The two ways the search can leave defined behaviour. *)
Inductive fault : Type :=
| NullPoint     (* [node->pt] is null in the leaf branch *)
| EmptyResult.  (* [qr.back()] on an empty list *)

(** Outcome of a run. *)
Inductive result (A : Type) : Type :=
| Ok (a : A)
| Undefined (f : fault)
| OutOfFuel.
Arguments Ok {A} a.
Arguments Undefined {A} f.
Arguments OutOfFuel {A}.

(** One iteration of the loop. *)
Inductive step_result : Type :=
| Continue (qr : list (Point * Q)) (pq : list NodeDistance)
| Stop (qr : list (Point * Q))
| Crash (f : fault).

(** The insertion of the leaf branch: before the first entry whose distance
    is not less than the new one. *)
Fixpoint insert_result (x : Point * Q) (qr : list (Point * Q)) : list (Point * Q) :=
  match qr with
  | [] => [x]
  | y :: qr' => if Qltb (snd y) (snd x) then y :: insert_result x qr' else x :: qr
  end.

(** [qr.back().second] *)
Definition back_second (qr : list (Point * Q)) : option Q :=
  match rev qr with
  | [] => None
  | y :: _ => Some (snd y)
  end.

Section Search.

Variable dim : nat.
Context {heap : HeapAlgorithms}.

(** The content of the local [dist] of [min_pt_dist_to_node (pt, node)] at
    dimension [d] when neither branch assigned it. *)
Variable uninit : Point -> Node -> nat -> Q.

(** Squared distance of the leaf branch. *)
Definition sqdist (p q : Point) : Q :=
  fold_left (fun dist d => dist + (coord p d - coord q d) * (coord p d - coord q d))
            (seq 0 dim) 0.

Definition min_pt_dist_to_node (p : Point) (nd : Node) : Q :=
  let '(inside, min_dist) :=
    fold_left
      (fun '(inside, min_dist) d =>
         let '(dist, inside) :=
           if Qltb (coord p d) (coord (mid nd) d - radius nd) then
             (coord (mid nd) d - radius nd - coord p d, false)
           else if Qltb (coord (mid nd) d + radius nd) (coord p d) then
             (coord p d - (coord (mid nd) d + radius nd), false)
           else (uninit p nd d, inside) in
         (inside, if Qltb dist min_dist then dist else min_dist))
      (seq 0 dim) (true, DBL_MAX) in
  if inside then 0 else min_dist * min_dist.

(** The loop over the child slots of an internal node. *)
Definition push_children (p : Point) (kth_dist : Q) (cs : list (option Node))
           (pq : list NodeDistance) : list NodeDistance :=
  fold_left (fun pq c =>
               match c with
               | Some c =>
                   let min_dist := min_pt_dist_to_node p c in
                   if Qltb min_dist kth_dist
                   then push_heap (pq ++ [mkND c min_dist])
                   else pq
               | None => pq
               end) cs pq.

(** The body of the [while] loop, on a non-empty queue [x :: v]. *)
Definition knn_step (k : nat) (p : Point) (eps : Q)
           (qr : list (Point * Q)) (x : NodeDistance) (v : list NodeDistance)
  : step_result :=
  let popped := pop_heap (x :: v) in
  let nd := last popped x in
  let pq := removelast popped in
  match nodes (node nd) with
  | None =>
      match pt (node nd) with
      | None => Crash NullPoint
      | Some np =>
          let dist := sqdist np p in
          let qr := insert_result (np, dist) qr in
          let qr := if Nat.ltb k (length qr) then removelast qr else qr in
          Continue qr pq
      end
  | Some cs =>
      match (if Nat.ltb (length qr) k then Some DBL_MAX else back_second qr) with
      | None => Crash EmptyResult
      | Some kth_dist =>
          if Qle_bool kth_dist ((1 + eps) * distance nd) then Stop qr
          else Continue qr (push_children p kth_dist cs pq)
      end
  end.

Fixpoint knn_loop (fuel : nat) (k : nat) (p : Point) (eps : Q)
         (qr : list (Point * Q)) (pq : list NodeDistance)
  : result (list (Point * Q) * exit) :=
  match pq with
  | [] => Ok (qr, QueueEmpty)
  | x :: v =>
      match fuel with
      | O => OutOfFuel
      | S fuel =>
          match knn_step k p eps qr x v with
          | Continue qr pq => knn_loop fuel k p eps qr pq
          | Stop qr => Ok (qr, Break)
          | Crash f => Undefined f
          end
      end
  end.

(** [CompressedQuadtree::knn] on the tree rooted at [root]. *)
Definition knn (fuel : nat) (root : Node) (k : nat) (p : Point) (eps : Q)
  : result (list (Point * Q)) :=
  match knn_loop fuel k p eps [] [mkND root 0] with
  | Ok (qr, _) => Ok qr
  | Undefined f => Undefined f
  | OutOfFuel => OutOfFuel
  end.

End Search.

(** The nodes that the loop over the child slots pushes. *)
Definition pushed (dim : nat) (uninit : Point -> Node -> nat -> Q)
           (p : Point) (kth_dist : Q) (cs : list (option Node)) : list NodeDistance :=
  flat_map (fun c =>
              match c with
              | Some c =>
                  if Qltb (min_pt_dist_to_node dim uninit p c) kth_dist
                  then [mkND c (min_pt_dist_to_node dim uninit p c)]
                  else []
              | None => []
              end) cs.

(** The leaf branch on the result list: insertion, then [pop_back] when
    longer than [k]. *)
Definition add_result (k : nat) (x : Point * Q) (qr : list (Point * Q))
  : list (Point * Q) :=
  if Nat.ltb k (length (insert_result x qr))
  then removelast (insert_result x qr)
  else insert_result x qr.

(** [kth_dist] of the internal branch. *)
Definition kth_dist (k : nat) (qr : list (Point * Q)) : option Q :=
  if Nat.ltb (length qr) k then Some DBL_MAX else back_second qr.

(** Number of nodes of a tree and of the trees of a queue. *)
Definition node_count (t : Node) : nat := length (subnodes t).

Definition queue_count (pq : list NodeDistance) : nat :=
  list_sum (map (fun nd => node_count (node nd)) pq).

(** ** A heap implementation

    A vector kept in non-decreasing order of distance is a heap for
    [operator<]; sorting therefore implements the two heap algorithms. *)

Fixpoint heap_insert (x : NodeDistance) (v : list NodeDistance) : list NodeDistance :=
  match v with
  | [] => [x]
  | y :: v' => if Qle_bool (distance x) (distance y) then x :: v
               else y :: heap_insert x v'
  end.

(** The order of the entries of a sorted vector. *)
Definition by_distance (a b : NodeDistance) : Prop := distance a <= distance b.

Definition heap_sort (v : list NodeDistance) : list NodeDistance :=
  fold_right heap_insert [] v.

Definition sort_pop_heap (v : list NodeDistance) : list NodeDistance :=
  match v with
  | [] => []
  | x :: v' => heap_sort v' ++ [x]
  end.

Definition sort_heap : HeapAlgorithms :=
  {| push_heap := heap_sort; pop_heap := sort_pop_heap |}.

(** ** The brute-force scan of the specification *)

(** Insertion into a list ordered by distance, after the entries that are not
    farther. *)
Fixpoint scan_insert (x : Point * Q) (l : list (Point * Q)) : list (Point * Q) :=
  match l with
  | [] => [x]
  | y :: l' => if Qle_bool (snd y) (snd x) then y :: scan_insert x l' else x :: l
  end.

(** Linear scan of the point set, kept ordered by squared distance to [q]. *)
Definition scan (dim : nat) (q : Point) (pts : list Point) : list (Point * Q) :=
  fold_left (fun acc p => scan_insert (p, sqdist dim p q) acc) pts [].

(** The first [k] entries of the scan are the answer. *)
Definition brute_force (dim : nat) (k : nat) (q : Point) (pts : list Point)
  : list (Point * Q) :=
  firstn k (scan dim q pts).

(** Two entries at the same distance. *)
Definition same_distance (a b : Point * Q) : Prop := snd a == snd b.

(** ** Predicates on nodes used by the statements *)

(** An internal node has at least two non-null children. *)
Definition compressed (x : Node) : Prop :=
  forall cs, nodes x = Some cs -> (2 <= length (present cs))%nat.

(** Leaf: null children array and a stored point. *)
Definition is_leaf (x : Node) : Prop := nodes x = None /\ pt x <> None.

(** Internal node: a children array and no point. *)
Definition is_internal (x : Node) : Prop := nodes x <> None /\ pt x = None.

(** Exactly one of the two shapes. *)
Definition leaf_xor_internal (x : Node) : Prop :=
  (is_leaf x /\ ~ is_internal x) \/ (is_internal x /\ ~ is_leaf x).

(** One halving of a radius, [radius / 2.0]. *)
Definition halve (r : Q) : Q := r / 2.

(** The cube of center [m'] and half side [r'] lies inside the cube of
    center [m] and half side [r]. *)
Definition cube_in (dim : nat) (m' : Point) (r' : Q) (m : Point) (r : Q) : Prop :=
  forall d, (d < dim)%nat ->
            coord m d - r <= coord m' d - r' /\ coord m' d + r' <= coord m d + r.

(** A point lies in the region of a node. *)
Definition in_region (dim : nat) (x : Node) (p : Point) : Prop :=
  forall d, (d < dim)%nat ->
            coord (mid x) d - radius x <= coord p d /\
            coord p d <= coord (mid x) d + radius x.

(** The child [c] in slot [n] of [x] has half the radius of [x] and the
    center [mid[d] + radius/2] or [mid[d] - radius/2] by bit [d] of [n]. *)
Definition halved_child (dim : nat) (x : Node) (n : nat) (c : Node) : Prop :=
  radius c == radius x / 2 /\
  forall d, (d < dim)%nat ->
            coord (mid c) d ==
            if Nat.testbit n d
            then coord (mid x) d + radius x / 2
            else coord (mid x) d - radius x / 2.

(** The halving property for every child slot of a tree. *)
Definition halving_invariant (dim : nat) (root : Node) : Prop :=
  forall x cs n c,
    In x (subnodes root) -> nodes x = Some cs -> nth_error cs n = Some (Some c) ->
    halved_child dim x n c.

(** ** The coordinate range of the interface: per dimension the pair
    (min, max) *)

Definition range_min (range : nat -> Q) (d : nat) : Q := range (2 * d)%nat.
Definition range_max (range : nat -> Q) (d : nat) : Q := range (2 * d + 1)%nat.
Definition midpoint (range : nat -> Q) (d : nat) : Q :=
  (range_min range d + range_max range d) / 2.
Definition half_extent (range : nat -> Q) (d : nat) : Q :=
  (range_max range d - range_min range d) / 2.

(** The root node carries the centered cube of the range: center at the
    midpoints, radius at least every half extent, covering the range. *)
Definition root_region_claim (dim : nat) (range : nat -> Q) (root : Node) : Prop :=
  (forall d, (d < dim)%nat -> coord (mid root) d == midpoint range d) /\
  (forall d, (d < dim)%nat -> half_extent range d <= radius root) /\
  (forall d, (d < dim)%nat ->
             coord (mid root) d - radius root <= range_min range d /\
             range_max range d <= coord (mid root) d + radius root).

(** ** Example trees *)

(** The children array of a node (empty for a leaf). *)
Definition children (t : Node) : list (option Node) :=
  match nodes t with Some cs => cs | None => [] end.

(** The node in slot [n] of [t] ([t] itself when there is none). *)
Definition slot (t : Node) (n : nat) : Node :=
  match nth_error (children t) n with Some (Some c) => c | _ => t end.

Definition built (o : option Node) : Node :=
  match o with Some t => t | None => new_Node 0 [] 0 end.

(** Five points of the plane in the range [0,10] x [0,10]. *)
Definition ex_pts : list Point := [[0;0];[10;0];[0;10];[10;10];[5;5]].
Definition ex_range : nat -> Q := range_of [0;10;0;10].
Definition ex_root : Node :=
  Eval vm_compute in built (CompressedQuadtree 2 10 ex_pts ex_range default_fn).

(** Three points of the line in the range [0,10]. *)
Definition line_pts : list Point := [[0];[1];[10]].
Definition line_range : nat -> Q := range_of [0;10].
Definition line_root : Node :=
  Eval vm_compute in built (CompressedQuadtree 1 10 line_pts line_range default_fn).

(** The range bounds the points, the pair of dimension [d] being read where
    the constructor reads it (for [dim <= 2], at [2d] and [2d + 1]). *)
Definition range_bounds (dim : nat) (range : nat -> Q) (pts : list Point) : Prop :=
  forall p d, In p pts -> (d < dim)%nat ->
              range (d * dim)%nat <= coord p d /\ coord p d <= range (d * dim + 1)%nat.

(** Order of the entries of a result list. *)
Definition le_snd (a b : Point * Q) : Prop := snd a <= snd b.

(** Number of points below the entries of a queue. *)
Definition queue_points (pq : list NodeDistance) : nat :=
  list_sum (map (fun nd => length (points_of (node nd))) pq).

(** An indeterminate content that reads as zero. *)
Definition zero_uninit : Point -> Node -> nat -> Q := fun _ _ _ => 0.

(** ** The region lower bound, dimension by dimension *)

(** The point is below or above the region on dimension [d]. *)
Definition outside (nd : Node) (p : Point) (d : nat) : bool :=
  Qltb (coord p d) (coord (mid nd) d - radius nd)
  || Qltb (coord (mid nd) d + radius nd) (coord p d).

(** The gap on dimension [d]: the shortfall below [mid[d] - radius] or above
    [mid[d] + radius] (0 when there is none). *)
Definition gap (nd : Node) (p : Point) (d : nat) : Q :=
  if Qltb (coord p d) (coord (mid nd) d - radius nd)
  then coord (mid nd) d - radius nd - coord p d
  else if Qltb (coord (mid nd) d + radius nd) (coord p d)
       then coord p d - (coord (mid nd) d + radius nd)
       else 0.

(** What the local [dist] holds when it is compared with [min_dist]. *)
Definition dist_read (uninit : Point -> Node -> nat -> Q)
           (nd : Node) (p : Point) (d : nat) : Q :=
  if outside nd p d then gap nd p d else uninit p nd d.

(** The largest gap over the dimensions. *)
Definition largest_gap (dim : nat) (nd : Node) (p : Point) : Q :=
  fold_left (fun g d => Qmax g (gap nd p d)) (seq 0 dim) 0.

(** The bound as the specification words it: 0 inside the region, the
    square of the largest gap otherwise. *)
Definition largest_gap_bound (dim : nat) (nd : Node) (p : Point) : Q :=
  if forallb (fun d => negb (outside nd p d)) (seq 0 dim)
  then 0
  else largest_gap dim nd p * largest_gap dim nd p.

(** The point is within the region on dimension [d]. *)
Definition within (nd : Node) (p : Point) (d : nat) : Prop :=
  coord (mid nd) d - radius nd <= coord p d /\ coord p d <= coord (mid nd) d + radius nd.

(** An indeterminate content that reads as -100. *)
Definition negative_uninit : Point -> Node -> nat -> Q := fun _ _ _ => - (100).

(** ** Bookkeeping of the exact search *)

(** The points below the entries of a queue. *)
Definition queue_pts (pq : list NodeDistance) : list Point :=
  flat_map (fun nd => points_of (node nd)) pq.

(** The points below the children that the loop over the slots does not
    push. *)
Definition pruned (dim : nat) (uninit : Point -> Node -> nat -> Q)
           (p : Point) (kth : Q) (cs : list (option Node)) : list Point :=
  flat_map (fun c =>
              match c with
              | Some c =>
                  if Qltb (min_pt_dist_to_node dim uninit p c) kth
                  then []
                  else points_of c
              | None => []
              end) cs.

(** [qr] holds nearest points among [all]: the points of [all] that it
    leaves out are at least as far from [q] as each of its entries, and
    it leaves some out only when it has [k] entries. *)
Definition nearest_among (dim : nat) (q : Point) (k : nat)
           (qr : list (Point * Q)) (all : list Point) : Prop :=
  exists dropped,
    Permutation (map fst qr ++ dropped) all /\
    (dropped <> [] -> length qr = k) /\
    (forall r x, In r dropped -> In x qr -> snd x <= sqdist dim r q).

(** The invariant of the search loop for [eps = 0]: the queue is a heap of
    subtrees with valid bounds, and the result list holds nearest points
    among the points [seen], which are all those not below the queue. *)
Definition exact_inv (dim : nat) (q : Point) (k : nat) (root : Node)
           (qr : list (Point * Q)) (pq : list NodeDistance) : Prop :=
  is_heap pq /\
  StronglySorted le_snd qr /\
  (length qr <= k)%nat /\
  (forall x, In x qr -> snd x = sqdist dim (fst x) q) /\
  (forall nd, In nd pq ->
              incl (subnodes (node nd)) (subnodes root) /\
              distance nd < DBL_MAX /\
              forall p, In p (points_of (node nd)) -> distance nd <= sqdist dim p q) /\
  exists seen,
    Permutation (seen ++ queue_pts pq) (points_of root) /\
    nearest_among dim q k qr seen.

(** Two points of the line at the same distance from the query point 3, in
    the range [0,8]. *)
Definition tie_pts : list Point := [[1];[5]].
Definition tie_range : nat -> Q := range_of [0;8].
Definition tie_root : Node :=
  Eval vm_compute in built (CompressedQuadtree 1 10 tie_pts tie_range default_fn).

(** The same points, as sets. *)
Definition same_points (a b : list (Point * Q)) : Prop :=
  forall p, In p (map fst a) <-> In p (map fst b).

(** ** Predicates carried by the proofs *)

(** What [worker] left in slot [n] of an internal node, for a property [P]
    of recursive calls. *)
Definition child_rel (dim : nat)
           (P : Point -> Q -> list Point -> nat -> Node -> Prop)
           (m : Point) (r : Q) (pts : list Point) (depth : nat)
           (n : nat) (c : option Node) : Prop :=
  match c with
  | None => node_pts dim m pts n = []
  | Some t => node_pts dim m pts n <> [] /\
              P (new_mid dim m (r / 2) n) (r / 2) (node_pts dim m pts n) (S depth) t
  end.

(** Region facts carried along the calls of [worker]. *)
Definition region_facts (dim : nat) (m : Point) (r : Q) (pts : list Point) (t : Node)
  : Prop :=
  (exists j, radius t = Nat.iter j halve r) /\
  cube_in dim (mid t) (radius t) m r /\
  (nodes t = None ->
   length pts = 1%nat /\ radius t = r /\ mid t = map (coord m) (seq 0 dim)) /\
  (forall x cs n c,
      In x (subnodes t) -> nodes x = Some cs -> nth_error cs n = Some (Some c) ->
      (exists j, radius c = Nat.iter (S j) halve (radius x)) /\
      cube_in dim (mid c) (radius c) (new_mid dim (mid x) (radius x / 2) n) (radius x / 2) /\
      (nodes c = None -> halved_child dim x n c)).

(** The invariant of the search loop for the order and the length of the
    result. *)
Definition ordering_inv (k : nat) (root : Node)
           (qr : list (Point * Q)) (pq : list NodeDistance) : Prop :=
  is_heap pq /\
  StronglySorted le_snd qr /\
  (length qr <= k)%nat /\
  (length qr + queue_points pq <= length (points_of root))%nat.

(** What holds of the result list when the exact search ends. *)
Definition exact_post (dim : nat) (q : Point) (k : nat) (root : Node)
           (qr : list (Point * Q)) : Prop :=
  StronglySorted le_snd qr /\ (length qr <= k)%nat /\
  (forall x, In x qr -> snd x = sqdist dim (fst x) q) /\
  nearest_among dim q k qr (points_of root).

(** ** Predicates of the further properties *)

(** The invariant of the search loop for the validity of the result: the
    entries carry the squared distance of their point, and the points of
    the result, those below the queue and some others are the points of
    the tree. *)
Definition valid_inv (dim : nat) (q : Point) (root : Node)
           (qr : list (Point * Q)) (pq : list NodeDistance) : Prop :=
  is_heap pq /\
  (forall x, In x qr -> snd x = sqdist dim (fst x) q) /\
  exists rest, Permutation (map fst qr ++ rest ++ queue_pts pq) (points_of root).

(** [qr] holds nearest points among [all] up to the factor [1 + eps]: the
    points of [all] that it leaves out are, times [1 + eps], at least as
    far from [q] as each of its entries, and it leaves some out only when
    it has [k] entries. *)
Definition nearest_within (dim : nat) (q : Point) (k : nat) (eps : Q)
           (qr : list (Point * Q)) (all : list Point) : Prop :=
  exists dropped,
    Permutation (map fst qr ++ dropped) all /\
    (dropped <> [] -> length qr = k) /\
    (forall r x, In r dropped -> In x qr -> snd x <= (1 + eps) * sqdist dim r q).

(** The invariant of the search loop for the approximate search. *)
Definition approx_inv (dim : nat) (q : Point) (k : nat) (eps : Q) (root : Node)
           (qr : list (Point * Q)) (pq : list NodeDistance) : Prop :=
  is_heap pq /\
  StronglySorted le_snd qr /\
  (length qr <= k)%nat /\
  (forall x, In x qr -> snd x = sqdist dim (fst x) q) /\
  (forall nd, In nd pq ->
              incl (subnodes (node nd)) (subnodes root) /\
              (1 + eps) * distance nd < DBL_MAX /\
              forall p, In p (points_of (node nd)) -> distance nd <= sqdist dim p q) /\
  exists seen,
    Permutation (seen ++ queue_pts pq) (points_of root) /\
    nearest_within dim q k eps qr seen.

(** What holds of the result list when the approximate search ends. *)
Definition approx_post (dim : nat) (q : Point) (k : nat) (eps : Q) (root : Node)
           (qr : list (Point * Q)) : Prop :=
  StronglySorted le_snd qr /\ (length qr <= k)%nat /\
  (forall x, In x qr -> snd x = sqdist dim (fst x) q) /\
  nearest_within dim q k eps qr (points_of root).
(** * Properties of the construction *)

Lemma Qltb_lt (a b : Q) : Qltb a b = true <-> a < b.
Proof.
  unfold Qltb. rewrite negb_true_iff. split; intro H.
  - apply Qnot_le_lt. intro Hle. apply Qle_bool_iff in Hle. congruence.
  - destruct (Qle_bool b a) eqn:E; [|reflexivity].
    apply Qle_bool_iff in E. exfalso. apply (Qlt_not_le _ _ H E).
Qed.

Lemma Qltb_ge (a b : Q) : Qltb a b = false <-> b <= a.
Proof.
  unfold Qltb. rewrite negb_false_iff. apply Qle_bool_iff.
Qed.

Lemma collect_Forall2 {A B} (f : A -> option B) (l : list A) (r : list B) :
  collect (map f l) = Some r -> Forall2 (fun a b => f a = Some b) l r.
Proof.
  revert r. induction l as [|a l IH]; simpl; intros r H.
  - injection H as <-. constructor.
  - destruct (f a) as [b|] eqn:Ea; [|discriminate].
    destruct (collect (map f l)) as [r'|]; [|discriminate].
    injection H as <-. constructor; auto.
Qed.

Lemma Forall2_In_r {A B} (R : A -> B -> Prop) (l : list A) (r : list B) (b : B) :
  Forall2 R l r -> In b r -> exists a, In a l /\ R a b.
Proof.
  induction 1 as [|x y l r Hxy _ IH]; simpl; [contradiction|].
  intros [<-|Hb].
  - exists x. auto.
  - destruct (IH Hb) as (a & Ha & HR). exists a. auto.
Qed.

Lemma Forall2_In_l {A B} (R : A -> B -> Prop) (l : list A) (r : list B) (a : A) :
  Forall2 R l r -> In a l -> exists b, In b r /\ R a b.
Proof.
  induction 1 as [|x y l r Hxy _ IH]; simpl; [contradiction|].
  intros [<-|Ha].
  - exists y. auto.
  - destruct (IH Ha) as (b & Hb & HR). exists b. auto.
Qed.

Lemma first_present_In (cs : list (option Node)) (c : Node) :
  first_present cs = Some c -> In (Some c) cs.
Proof.
  induction cs as [|[x|] cs IH]; simpl; intro H; try discriminate.
  - injection H as ->. now left.
  - right. auto.
Qed.

Lemma first_present_None (cs : list (option Node)) :
  first_present cs = None -> present cs = [].
Proof.
  induction cs as [|[x|] cs IH]; simpl; intro H; try discriminate; auto.
Qed.

Section BuildProps.

Variable dim : nat.

Lemma orthant_fold_lt (m p : Point) (k : nat) :
  (fold_left (fun n d => if Qltb (coord m d) (coord p d) then (n + 2 ^ d)%nat else n)
             (seq 0 k) 0%nat < 2 ^ k)%nat.
Proof.
  induction k as [|k IH].
  - simpl. lia.
  - rewrite seq_S, fold_left_app. simpl fold_left.
    rewrite Nat.pow_succ_r'.
    destruct (Qltb (coord m k) (coord p k)); simpl; lia.
Qed.

Lemma orthant_lt (m p : Point) : (orthant dim m p < nnodes dim)%nat.
Proof. apply orthant_fold_lt. Qed.

Lemma node_pts_In (m : Point) (pts : list Point) (n : nat) (p : Point) :
  In p (node_pts dim m pts n) <-> In p pts /\ orthant dim m p = n.
Proof.
  unfold node_pts. rewrite filter_In, Nat.eqb_eq. tauto.
Qed.

Lemma filter_all {A} (f : A -> bool) (l : list A) :
  (forall x, In x l -> f x = true) -> filter f l = l.
Proof.
  induction l as [|a l IH]; simpl; intro H; [reflexivity|].
  rewrite (H a) by now left. f_equal. apply IH. intros; apply H; now right.
Qed.

Lemma filter_length_le1 {A} (f : A -> bool) (l : list A) (a b : A) :
  NoDup l -> In a l -> In b l -> f a = true -> f b = true ->
  (length (filter f l) < 2)%nat -> a = b.
Proof.
  induction l as [|x l IH]; simpl; intros Hnd Ha Hb Fa Fb Hlen; [contradiction|].
  inversion Hnd as [|? ? Hx Hnd']; subst.
  destruct (f x) eqn:Fx; simpl in Hlen.
  - assert (Hnil : filter f l = []).
    { destruct (filter f l); [reflexivity | simpl in Hlen; lia]. }
    assert (Hno : forall y, In y l -> f y = true -> False).
    { intros y Hy Fy. assert (In y (filter f l)) by (apply filter_In; auto).
      rewrite Hnil in H. contradiction. }
    destruct Ha as [<-|Ha]; destruct Hb as [<-|Hb]; auto;
      exfalso; eauto.
  - destruct Ha as [<-|Ha]; [congruence|].
    destruct Hb as [<-|Hb]; [congruence|].
    apply IH; auto.
Qed.

(** With fewer than two interesting buckets, a non-empty bucket holds every
    point. *)
Lemma single_bucket (m : Point) (pts : list Point) (n : nat) :
  (ninteresting dim m pts < 2)%nat -> (n < nnodes dim)%nat ->
  node_pts dim m pts n <> [] -> node_pts dim m pts n = pts.
Proof.
  intros Hlt Hn Hne. apply filter_all. intros p Hp. apply Nat.eqb_eq.
  unfold ninteresting in Hlt.
  apply (filter_length_le1
           (fun n => negb (Nat.eqb (length (node_pts dim m pts n)) 0))
           (seq 0 (nnodes dim))); auto.
  - apply seq_NoDup.
  - apply in_seq. pose proof (orthant_lt m p). lia.
  - apply in_seq. lia.
  - apply negb_true_iff, Nat.eqb_neq.
    assert (In p (node_pts dim m pts (orthant dim m p))) by (apply node_pts_In; auto).
    destruct (node_pts dim m pts (orthant dim m p)); [contradiction | simpl; lia].
  - apply negb_true_iff, Nat.eqb_neq.
    destruct (node_pts dim m pts n); [congruence | simpl; lia].
Qed.

(** With no interesting bucket there is no point. *)
Lemma no_bucket (m : Point) (pts : list Point) :
  (forall n, (n < nnodes dim)%nat -> node_pts dim m pts n = []) -> pts = [].
Proof.
  intro H. destruct pts as [|p pts]; [reflexivity|].
  assert (In p (node_pts dim m (p :: pts) (orthant dim m p)))
    by (apply node_pts_In; split; [now left | reflexivity]).
  rewrite (H _ (orthant_lt m p)) in H0. contradiction.
Qed.

Lemma present_length_filter {A} (f : A -> bool) (R : A -> option Node -> Prop)
      (l : list A) (cs : list (option Node)) :
  Forall2 R l cs ->
  (forall a c, R a c -> (f a = true <-> c <> None)) ->
  length (present cs) = length (filter f l).
Proof.
  intros H HR. induction H as [|a c l cs Hac _ IH]; [reflexivity|].
  simpl. specialize (HR a c Hac). destruct c as [t|]; simpl.
  - destruct (f a); [simpl; congruence|]. exfalso.
    assert (false = true) by (apply HR; discriminate). discriminate.
  - destruct (f a); [|assumption]. exfalso. now apply (proj1 HR).
Qed.

(** Induction along the calls of [worker]: one case per way it returns. *)
Lemma worker_ind (fn : EndBuildFn) (P : Point -> Q -> list Point -> nat -> Node -> Prop) :
  (forall m r p depth,
      P m r [p] depth (mkNode None (map (coord m) (seq 0 dim)) r (Some p))) ->
  (forall m r pts depth,
      length pts <> 1%nat -> fn (new_Node dim m r) depth = true ->
      P m r pts depth (new_Node dim m r)) ->
  (forall m r pts depth cs,
      length pts <> 1%nat -> fn (new_Node dim m r) depth = false ->
      Forall2 (child_rel dim P m r pts depth) (seq 0 (nnodes dim)) cs ->
      (2 <= ninteresting dim m pts)%nat ->
      length (present cs) = ninteresting dim m pts ->
      P m r pts depth (mkNode (Some cs) (map (coord m) (seq 0 dim)) r None)) ->
  (forall m r pts depth n c,
      length pts <> 1%nat -> fn (new_Node dim m r) depth = false ->
      (n < nnodes dim)%nat -> pts <> [] -> (ninteresting dim m pts < 2)%nat ->
      node_pts dim m pts n = pts ->
      P (new_mid dim m (r / 2) n) (r / 2) pts (S depth) c ->
      P m r pts depth c) ->
  (forall m r depth,
      fn (new_Node dim m r) depth = false ->
      P m r [] depth (mkNode (Some (repeat None (nnodes dim)))
                             (map (coord m) (seq 0 dim)) r None)) ->
  forall fuel m r pts depth t,
    worker dim fuel m r pts fn depth = Some t -> P m r pts depth t.
Proof.
  intros Hleaf Hstop Hint Hcomp Hempty.
  induction fuel as [|fuel IH]; intros m r pts depth t H; [discriminate|].
  simpl in H.
  destruct (Nat.eqb (length pts) 1) eqn:Elen.
  { apply Nat.eqb_eq in Elen.
    destruct pts as [|p [|q pts]]; try discriminate.
    injection H as <-. apply Hleaf. }
  apply Nat.eqb_neq in Elen.
  destruct (fn (new_Node dim m r) depth) eqn:Efn; simpl in H.
  { injection H as <-. now apply Hstop. }
  match type of H with
  | match collect (map ?f _) with _ => _ end = _ =>
      destruct (collect (map f (seq 0 (nnodes dim)))) as [cs|] eqn:Ecs;
        [apply collect_Forall2 in Ecs | discriminate]
  end.
  assert (Hrel : Forall2 (child_rel dim P m r pts depth) (seq 0 (nnodes dim)) cs).
  { eapply Forall2_impl; [|exact Ecs]. intros n c Hc. simpl in Hc.
    destruct (length (node_pts dim m pts n) =? 0)%nat eqn:E0; simpl in Hc.
    - injection Hc as <-. simpl. apply Nat.eqb_eq in E0.
      now apply length_zero_iff_nil.
    - apply Nat.eqb_neq in E0.
      destruct (worker dim fuel _ _ _ fn (S depth)) as [t'|] eqn:Ew; [|discriminate].
      injection Hc as <-. simpl. split.
      + intro Hn. rewrite Hn in E0. now apply E0.
      + now apply IH. }
  assert (Hlen : length (present cs) = ninteresting dim m pts).
  { unfold ninteresting. eapply present_length_filter; [exact Hrel|].
    intros n c Hc. rewrite negb_true_iff, Nat.eqb_neq.
    destruct c as [t'|]; simpl in Hc.
    - destruct Hc as [Hne _]. split; [discriminate|]. intros _ H0.
      apply Hne. now apply length_zero_iff_nil.
    - rewrite Hc. simpl. split; intro; congruence. }
  destruct (Nat.ltb (ninteresting dim m pts) 2) eqn:Eni.
  - apply Nat.ltb_lt in Eni.
    destruct (first_present cs) as [c|] eqn:Efp.
    + injection H as <-.
      apply first_present_In in Efp.
      destruct (Forall2_In_r _ _ _ _ Hrel Efp) as (n & Hn & Hc).
      apply in_seq in Hn. simpl in Hc. destruct Hc as [Hne HP].
      assert (Hn' : (n < nnodes dim)%nat) by lia.
      pose proof (single_bucket m pts n Eni Hn' Hne) as Hall.
      rewrite Hall in HP.
      apply (Hcomp m r pts depth n); auto.
      intros ->. now apply Hne.
    + injection H as <-.
      apply first_present_None in Efp.
      assert (Hall : Forall (fun c => c = None) cs).
      { clear -Efp. induction cs as [|[x|] cs IHcs]; simpl in *;
          try discriminate; constructor; auto. }
      assert (Hpts : pts = []).
      { apply (no_bucket m). intros n Hn.
        assert (Hin : In n (seq 0 (nnodes dim))) by (apply in_seq; lia).
        destruct (Forall2_In_l _ _ _ _ Hrel Hin) as (c & Hc & Hr).
        rewrite Forall_forall in Hall. rewrite (Hall _ Hc) in Hr. exact Hr. }
      subst pts.
      assert (Hcs : cs = repeat None (nnodes dim)).
      { apply Forall2_length in Hrel. rewrite length_seq in Hrel.
        rewrite Hrel. clear -Hall. induction Hall; simpl; congruence. }
      rewrite Hcs. now apply Hempty.
  - apply Nat.ltb_ge in Eni. injection H as <-. now apply Hint.
Qed.

End BuildProps.

Lemma subnodes_internal (cs : list (option Node)) (m : Point) (r : Q) (p : option Point) :
  subnodes (mkNode (Some cs) m r p) =
  mkNode (Some cs) m r p ::
  flat_map (fun c => match c with Some c => subnodes c | None => [] end) cs.
Proof. reflexivity. Qed.

Lemma In_subnodes_internal (cs : list (option Node)) (m : Point) (r : Q)
      (p : option Point) (x : Node) :
  In x (subnodes (mkNode (Some cs) m r p)) <->
  x = mkNode (Some cs) m r p \/ exists c, In (Some c) cs /\ In x (subnodes c).
Proof.
  rewrite subnodes_internal. simpl. rewrite in_flat_map. split.
  - intros [H|([c|] & Hc & Hx)]; auto; [right; eauto | contradiction].
  - intros [H|(c & Hc & Hx)]; auto. right. exists (Some c). auto.
Qed.

Lemma In_subnodes_self (t : Node) : In t (subnodes t).
Proof. destruct t; simpl; auto. Qed.

Lemma repeat_None_present {A} (n : nat) : present (repeat (@None A) n) = [].
Proof. induction n; simpl; auto. Qed.

Section BuildInvariants.

Variable dim : nat.

Lemma worker_compressed (fuel : nat) (m : Point) (r : Q) (pts : list Point)
      (depth : nat) (t : Node) :
  worker dim fuel m r pts default_fn depth = Some t ->
  pts <> [] -> forall x, In x (subnodes t) -> compressed x.
Proof.
  revert fuel m r pts depth t.
  apply (worker_ind dim default_fn
           (fun m r pts depth t =>
              pts <> [] -> forall x, In x (subnodes t) -> compressed x)).
  - intros m r p depth _ x [<-|[]] cs Hcs. discriminate.
  - intros m r pts depth _ Hfn. discriminate.
  - intros m r pts depth cs _ _ Hrel Hni Hlen _ x Hx.
    apply In_subnodes_internal in Hx. destruct Hx as [->|(c & Hc & Hx)].
    + intros cs' Hcs'. injection Hcs' as <-. lia.
    + destruct (Forall2_In_r _ _ _ _ Hrel Hc) as (n & _ & Hne & HP).
      now apply HP.
  - intros m r pts depth n c _ _ _ Hne _ _ HP _. now apply HP.
  - intros m r depth _ Habs. congruence.
Qed.

Lemma worker_leaf_xor_internal (fuel : nat) (m : Point) (r : Q) (pts : list Point)
      (depth : nat) (t : Node) :
  worker dim fuel m r pts default_fn depth = Some t ->
  forall x, In x (subnodes t) -> leaf_xor_internal x.
Proof.
  revert fuel m r pts depth t.
  apply (worker_ind dim default_fn
           (fun m r pts depth t => forall x, In x (subnodes t) -> leaf_xor_internal x)).
  - intros m r p depth x [<-|[]]. left. unfold is_leaf, is_internal; simpl.
    split; [split; [reflexivity | discriminate] | intros [H _]; now apply H].
  - intros m r pts depth _ Hfn. discriminate.
  - intros m r pts depth cs _ _ Hrel _ _ x Hx.
    apply In_subnodes_internal in Hx. destruct Hx as [->|(c & Hc & Hx)].
    + right. unfold is_leaf, is_internal; simpl.
      split; [split; [discriminate | reflexivity] | intros [H _]; discriminate].
    + destruct (Forall2_In_r _ _ _ _ Hrel Hc) as (n & _ & Hne & HP).
      now apply HP.
  - intros m r pts depth n c _ _ _ _ _ _ HP. exact HP.
  - intros m r depth _ x Hx.
    apply In_subnodes_internal in Hx. destruct Hx as [->|(c & Hc & Hx)].
    + right. unfold is_leaf, is_internal; simpl.
      split; [split; [discriminate | reflexivity] | intros [H _]; discriminate].
    + apply repeat_spec in Hc. discriminate.
Qed.

(** Every children array of a built tree has [nnodes] slots, those that
    the loop over the children in [knn] visits. *)
Lemma worker_children_length (fn : EndBuildFn) (fuel : nat) (m : Point) (r : Q)
      (pts : list Point) (depth : nat) (t : Node) :
  worker dim fuel m r pts fn depth = Some t ->
  forall x cs, In x (subnodes t) -> nodes x = Some cs -> length cs = nnodes dim.
Proof.
  revert fuel m r pts depth t.
  apply (worker_ind dim fn
           (fun m r pts depth t =>
              forall x cs, In x (subnodes t) -> nodes x = Some cs ->
                           length cs = nnodes dim)).
  - intros m r p depth x cs [<-|[]] H. discriminate.
  - intros m r pts depth _ _ x cs [<-|[]] H. discriminate.
  - intros m r pts depth cs _ _ Hrel _ _ x cs' Hx Hcs'.
    apply In_subnodes_internal in Hx. destruct Hx as [->|(c & Hc & Hx)].
    + injection Hcs' as <-. apply Forall2_length in Hrel.
      now rewrite length_seq in Hrel.
    + destruct (Forall2_In_r _ _ _ _ Hrel Hc) as (n & _ & _ & HP).
      now apply (HP x).
  - intros m r pts depth n c _ _ _ _ _ _ HP. exact HP.
  - intros m r depth _ x cs Hx Hcs.
    apply In_subnodes_internal in Hx. destruct Hx as [->|(c & Hc & Hx)].
    + injection Hcs as <-. apply repeat_length.
    + apply repeat_spec in Hc. discriminate.
Qed.

End BuildInvariants.

(** C2. In a tree built from a non-empty point set with the default stop
    predicate, every internal node has at least two non-null children. *)
Theorem compression_invariant (dim fuel : nat) (pts : list Point) (range : nat -> Q)
        (root : Node) :
  pts <> [] ->
  CompressedQuadtree dim fuel pts range default_fn = Some root ->
  forall x cs, In x (subnodes root) -> nodes x = Some cs ->
               (2 <= length (present cs))%nat.
Proof.
  intros Hne Hbuild x cs Hx Hcs.
  exact (worker_compressed dim _ _ _ _ _ _ Hbuild Hne x Hx cs Hcs).
Qed.

Lemma compression_invariant_witness : (2 <= length (present (children ex_root)))%nat.
Proof.
  apply (compression_invariant 2 10 ex_pts ex_range ex_root) with (x := ex_root).
  - discriminate.
  - vm_compute. reflexivity.
  - apply In_subnodes_self.
  - reflexivity.
Defined.

(** ** Regions *)

Lemma coord_map_seq (f : nat -> Q) (dim d : nat) :
  (d < dim)%nat -> coord (map f (seq 0 dim)) d = f d.
Proof.
  intro H. unfold coord.
  rewrite (nth_indep _ 0 (f 0%nat)) by (rewrite length_map, length_seq; exact H).
  rewrite (map_nth f (seq 0 dim) 0%nat d), seq_nth; auto.
Qed.

Lemma testbit_add_pow2_low (a k d : nat) :
  (d < k)%nat -> Nat.testbit (a + 2 ^ k) d = Nat.testbit a d.
Proof.
  intro H. rewrite !Nat.testbit_eqb.
  replace (2 ^ k)%nat with (2 ^ (k - d) * 2 ^ d)%nat
    by (rewrite <- Nat.pow_add_r; f_equal; lia).
  rewrite Nat.div_add by (apply Nat.pow_nonzero; lia).
  replace (k - d)%nat with (S (k - d - 1)) by lia.
  rewrite Nat.pow_succ_r', (Nat.mul_comm 2), Nat.Div0.mod_add. reflexivity.
Qed.

Lemma testbit_add_pow2_high (a k : nat) :
  (a < 2 ^ k)%nat -> Nat.testbit (a + 2 ^ k) k = true.
Proof.
  intro H. rewrite Nat.testbit_eqb.
  replace (a + 2 ^ k)%nat with (a + 1 * 2 ^ k)%nat by lia.
  rewrite Nat.div_add by (apply Nat.pow_nonzero; lia).
  rewrite Nat.div_small by exact H. reflexivity.
Qed.

Lemma testbit_small (a k : nat) : (a < 2 ^ k)%nat -> Nat.testbit a k = false.
Proof.
  intro H. rewrite Nat.testbit_eqb, Nat.div_small by exact H. reflexivity.
Qed.

Lemma orthant_fold_testbit (m p : Point) (k d : nat) :
  (d < k)%nat ->
  Nat.testbit
    (fold_left (fun n d => if Qltb (coord m d) (coord p d) then (n + 2 ^ d)%nat else n)
               (seq 0 k) 0%nat) d
  = Qltb (coord m d) (coord p d).
Proof.
  induction k as [|k IH]; intro H; [lia|].
  rewrite seq_S, fold_left_app. simpl fold_left.
  pose proof (orthant_fold_lt m p k) as Hlt.
  destruct (Nat.eq_dec d k) as [->|Hne].
  - destruct (Qltb (coord m k) (coord p k)).
    + now apply testbit_add_pow2_high.
    + now apply testbit_small.
  - assert (Hd : (d < k)%nat) by lia.
    destruct (Qltb (coord m k) (coord p k)).
    + rewrite testbit_add_pow2_low by exact Hd. now apply IH.
    + now apply IH.
Qed.

(** Bit [d] of the slot of a point tells on which side of [mid[d]] it lies. *)
Lemma orthant_testbit (dim : nat) (m p : Point) (d : nat) :
  (d < dim)%nat -> Nat.testbit (orthant dim m p) d = Qltb (coord m d) (coord p d).
Proof. apply orthant_fold_testbit. Qed.

Lemma coord_new_mid (dim : nat) (m : Point) (r : Q) (n d : nat) :
  (d < dim)%nat ->
  coord (new_mid dim m r n) d =
  if Nat.testbit n d then coord m d + r else coord m d - r.
Proof.
  intro H. unfold new_mid.
  exact (coord_map_seq (fun d => if Nat.testbit n d then coord m d + r else coord m d - r)
                       dim d H).
Qed.

Lemma Forall2_seq_nth_error {B} (R : nat -> B -> Prop) (a len : nat) (l : list B)
      (i : nat) (b : B) :
  Forall2 R (seq a len) l -> nth_error l i = Some b -> R (a + i)%nat b.
Proof.
  revert a l i. induction len as [|len IH]; intros a l i H Hi.
  - inversion H; subst. destruct i; discriminate.
  - simpl in H. inversion H as [|? y ? l' Hy Hl]; subst.
    destruct i as [|i]; simpl in Hi.
    + injection Hi as <-. now rewrite Nat.add_0_r.
    + replace (a + S i)%nat with (S a + i)%nat by lia. now apply (IH (S a) l').
Qed.

Ltac qhalf := unfold halve, Qdiv in *; change (/ 2) with (1 # 2) in *.

Lemma new_mid_copy (dim : nat) (m : Point) (r : Q) (n : nat) :
  new_mid dim (map (coord m) (seq 0 dim)) r n = new_mid dim m r n.
Proof.
  unfold new_mid. apply map_ext_in. intros d Hd. apply in_seq in Hd.
  rewrite coord_map_seq by lia. reflexivity.
Qed.

Lemma cube_in_refl_copy (dim : nat) (m : Point) (r : Q) :
  cube_in dim (map (coord m) (seq 0 dim)) r m r.
Proof.
  intros d Hd. rewrite coord_map_seq by exact Hd. split; apply Qle_refl.
Qed.

Lemma cube_in_slot (dim : nat) (m' : Point) (r' : Q) (m : Point) (r : Q) (n : nat) :
  0 <= r -> cube_in dim m' r' (new_mid dim m (r / 2) n) (r / 2) -> cube_in dim m' r' m r.
Proof.
  intros Hr H d Hd. specialize (H d Hd). rewrite coord_new_mid in H by exact Hd.
  destruct (Nat.testbit n d); qhalf; lra.
Qed.

Section Regions.

Variable dim : nat.

Lemma worker_region (fuel : nat) (m : Point) (r : Q) (pts : list Point)
      (depth : nat) (t : Node) :
  worker dim fuel m r pts default_fn depth = Some t ->
  0 <= r -> region_facts dim m r pts t.
Proof.
  revert fuel m r pts depth t.
  apply (worker_ind dim default_fn
           (fun m r pts depth t => 0 <= r -> region_facts dim m r pts t)).
  - (* leaf *)
    intros m r p depth Hr.
    split; [exists 0%nat; reflexivity|].
    split; [apply cube_in_refl_copy|].
    split; [intros _; auto|].
    intros x cs n c [<-|[]]. discriminate.
  - intros m r pts depth _ Hfn. discriminate.
  - (* internal node kept *)
    intros m r pts depth cs _ _ Hrel _ _ Hr.
    assert (Hr2 : 0 <= r / 2) by (qhalf; lra).
    split; [exists 0%nat; reflexivity|].
    split; [apply cube_in_refl_copy|].
    split; [discriminate|].
    intros x cs' n c Hx Hcs' Hc.
    apply In_subnodes_internal in Hx. destruct Hx as [->|(c' & Hc' & Hx)].
    + simpl in Hcs'. injection Hcs' as <-. simpl mid. simpl radius.
      pose proof (Forall2_seq_nth_error _ _ _ _ _ _ Hrel Hc) as [_ HP].
      simpl in HP. destruct (HP Hr2) as ((j & Hj) & Hcube & Hleaf & _).
      rewrite new_mid_copy. split; [|split].
      * exists j. rewrite Nat.iter_succ_r. exact Hj.
      * exact Hcube.
      * intro Hnone. destruct (Hleaf Hnone) as (_ & Hrad & Hmid).
        split; simpl.
        -- rewrite Hrad. reflexivity.
        -- intros d Hd. rewrite Hmid, !coord_map_seq by exact Hd.
           rewrite coord_new_mid by exact Hd.
           destruct (Nat.testbit n d); reflexivity.
    + destruct (Forall2_In_r _ _ _ _ Hrel Hc') as (n' & _ & _ & HP).
      destruct (HP Hr2) as (_ & _ & _ & Hsub). now apply (Hsub x cs' n c).
  - (* compression *)
    intros m r pts depth n c Hlen _ _ _ _ _ HP Hr.
    assert (Hr2 : 0 <= r / 2) by (qhalf; lra).
    destruct (HP Hr2) as ((j & Hj) & Hcube & Hleaf & Hsub).
    split; [|split; [|split]].
    + exists (S j). rewrite Nat.iter_succ_r. exact Hj.
    + now apply (cube_in_slot dim _ _ m r n).
    + intro Hnone. destruct (Hleaf Hnone) as (Habs & _). congruence.
    + exact Hsub.
  - (* no point *)
    intros m r depth _ Hr.
    split; [exists 0%nat; reflexivity|].
    split; [apply cube_in_refl_copy|].
    split; [discriminate|].
    intros x cs' n c Hx Hcs' Hc.
    apply In_subnodes_internal in Hx. destruct Hx as [->|(c' & Hc' & Hx)].
    + simpl in Hcs'. injection Hcs' as <-.
      apply nth_error_In, repeat_spec in Hc. discriminate.
    + apply repeat_spec in Hc'. discriminate.
Qed.

End Regions.

Section RootRegion.

Variable dim : nat.

(** [worker] returns the node of its own region unless it compresses. *)
Lemma worker_kept (fuel : nat) (m : Point) (r : Q) (pts : list Point)
      (depth : nat) (t : Node) :
  worker dim fuel m r pts default_fn depth = Some t ->
  (length pts <= 1)%nat \/ (2 <= ninteresting dim m pts)%nat ->
  radius t = r /\ mid t = map (coord m) (seq 0 dim).
Proof.
  revert fuel m r pts depth t.
  apply (worker_ind dim default_fn
           (fun m r pts depth t =>
              (length pts <= 1)%nat \/ (2 <= ninteresting dim m pts)%nat ->
              radius t = r /\ mid t = map (coord m) (seq 0 dim))).
  - intros; simpl; auto.
  - intros m r pts depth _ Hfn. discriminate.
  - intros; simpl; auto.
  - intros m r pts depth n c Hlen _ _ Hne Hni _ _ [H|H]; [|lia].
    destruct pts as [|p [|q pts]]; simpl in *; try congruence; lia.
  - intros; simpl; auto.
Qed.

Lemma root_radius_fold (side : nat -> Q) (l : list nat) (a : Q) :
  let R := fold_left (fun radius d => if Qltb radius (side d) then side d else radius) l a in
  a <= R /\ (forall d, In d l -> side d <= R) /\ (R = a \/ exists d, In d l /\ R = side d).
Proof.
  revert a. induction l as [|x l IH]; intro a; simpl.
  - split; [apply Qle_refl|]. split; [intros d []|now left].
  - specialize (IH (if Qltb a (side x) then side x else a)). simpl in IH.
    destruct IH as (Hle & Hall & Hex).
    destruct (Qltb a (side x)) eqn:E.
    + apply Qltb_lt in E. split; [lra|]. split.
      * intros d [<-|Hd]; auto.
      * destruct Hex as [->|(d & Hd & ->)]; right; eauto.
    + apply Qltb_ge in E. split; [exact Hle|]. split.
      * intros d [<-|Hd]; [lra|auto].
      * destruct Hex as [->|(d & Hd & ->)]; [now left|right; eauto].
Qed.

Lemma root_radius_nonneg (range : nat -> Q) : 0 <= root_radius dim range.
Proof.
  unfold root_radius.
  exact (proj1 (root_radius_fold
                  (fun d => (range (d * dim + 1)%nat - range (d * dim)%nat) / 2)
                  (seq 0 dim) 0)).
Qed.

End RootRegion.

(** ** The root region (C5) *)


Lemma root_mid_copy (dim : nat) (range : nat -> Q) :
  map (coord (root_mid dim range)) (seq 0 dim) = root_mid dim range.
Proof.
  unfold root_mid at 2. apply map_ext_in. intros d Hd. apply in_seq in Hd.
  unfold root_mid. rewrite coord_map_seq by lia. reflexivity.
Qed.

Lemma stride_two (dim d : nat) : (dim <= 2)%nat -> (d < dim)%nat -> (d * dim = 2 * d)%nat.
Proof.
  intros H Hd. destruct dim as [|[|[|dim]]]; lia.
Qed.



(** For three dimensions the pairs read at [d*dim] and [d*dim + 1] are not
    the pairs of the range: on the range [0,2] x [10,14] x [100,108] the
    center on dimension 1 is (14 + 100) / 2 = 57 where the midpoint is 12. *)
Example root_mid_three_dimensions :
  coord (root_mid 3 (range_of [0;2;10;14;100;108])) 1 == 57 /\
  midpoint (range_of [0;2;10;14;100;108]) 1 == 12.
Proof. split; vm_compute; reflexivity. Qed.

(** ** Child regions (C6) *)




(** ** The points of a tree *)

Lemma Node_induction (P : Node -> Prop) :
  (forall m r p, P (mkNode None m r p)) ->
  (forall cs m r p, (forall c, In (Some c) cs -> P c) -> P (mkNode (Some cs) m r p)) ->
  forall t, P t.
Proof.
  intros Hleaf Hint. fix IH 1. intros [[cs|] m r p]; [|apply Hleaf].
  apply Hint. induction cs as [|[c|] cs IHcs]; intros c' Hin.
  - contradiction.
  - destruct Hin as [Heq|Hin]; [|exact (IHcs c' Hin)].
    injection Heq as <-. apply IH.
  - destruct Hin as [Heq|Hin]; [discriminate|exact (IHcs c' Hin)].
Qed.

Lemma points_of_internal (cs : list (option Node)) (m : Point) (r : Q) (p : option Point) :
  points_of (mkNode (Some cs) m r p) =
  flat_map (fun c => match c with Some c => points_of c | None => [] end) cs.
Proof. reflexivity. Qed.

(** A point of a tree is the point of one of its leaves. *)
Lemma In_points_of (t : Node) (p : Point) :
  In p (points_of t) <->
  exists x, In x (subnodes t) /\ nodes x = None /\ pt x = Some p.
Proof.
  induction t as [m r q|cs m r q IH] using Node_induction.
  - simpl. split.
    + destruct q as [q|]; [|contradiction]. intros [<-|[]].
      eexists. split; [left; reflexivity|]. auto.
    + intros (x & [<-|[]] & _ & Hp). simpl in Hp. subst q. now left.
  - rewrite points_of_internal, in_flat_map. split.
    + intros ([c|] & Hc & Hp); [|contradiction].
      apply (IH c Hc) in Hp. destruct Hp as (x & Hx & Hl).
      exists x. split; [|exact Hl].
      apply In_subnodes_internal. right. eauto.
    + intros (x & Hx & Hn & Hp).
      apply In_subnodes_internal in Hx. destruct Hx as [->|(c & Hc & Hx)].
      * discriminate.
      * exists (Some c). split; [exact Hc|]. apply (IH c Hc). eauto.
Qed.

Lemma filter_split_perm {A} (f g : A -> bool) (l : list A) :
  (forall x, f x = true -> g x = true -> False) ->
  Permutation (filter (fun x => f x || g x) l) (filter f l ++ filter g l).
Proof.
  intro H. induction l as [|a l IH]; simpl; [constructor|].
  destruct (f a) eqn:Ef, (g a) eqn:Eg; simpl.
  - exfalso. eauto.
  - now constructor.
  - rewrite IH. apply Permutation_middle.
  - exact IH.
Qed.

Lemma buckets_perm_upto {A} (f : A -> nat) (l : list A) (k : nat) :
  Permutation (flat_map (fun n => filter (fun x => Nat.eqb (f x) n) l) (seq 0 k))
              (filter (fun x => Nat.ltb (f x) k) l).
Proof.
  induction k as [|k IH].
  - simpl. induction l; simpl; auto.
  - rewrite seq_S, flat_map_app. simpl. rewrite app_nil_r, IH.
    rewrite <- filter_split_perm.
    + erewrite filter_ext; [reflexivity|]. intro x. simpl.
      destruct (Nat.ltb_spec (f x) k), (Nat.eqb_spec (f x) k), (Nat.ltb_spec (f x) (S k));
        simpl; try reflexivity; lia.
    + intros x H1 H2. apply Nat.ltb_lt in H1. apply Nat.eqb_eq in H2. lia.
Qed.

(** The buckets of [worker] partition the points. *)
Lemma buckets_perm (dim : nat) (m : Point) (pts : list Point) :
  Permutation (flat_map (node_pts dim m pts) (seq 0 (nnodes dim))) pts.
Proof.
  unfold node_pts. rewrite (buckets_perm_upto (orthant dim m) pts (nnodes dim)).
  rewrite filter_all; [reflexivity|].
  intros p _. apply Nat.ltb_lt, orthant_lt.
Qed.

Lemma flat_map_Forall2_perm {A B C} (f : A -> list C) (g : B -> list C)
      (l : list A) (r : list B) :
  Forall2 (fun a b => Permutation (g b) (f a)) l r ->
  Permutation (flat_map g r) (flat_map f l).
Proof.
  induction 1; simpl; [constructor|]. now apply Permutation_app.
Qed.

Section Coverage.

Variable dim : nat.

(** The leaves of a built tree hold the input points. *)
Lemma worker_points (fuel : nat) (m : Point) (r : Q) (pts : list Point)
      (depth : nat) (t : Node) :
  worker dim fuel m r pts default_fn depth = Some t ->
  Permutation (points_of t) pts.
Proof.
  revert fuel m r pts depth t.
  apply (worker_ind dim default_fn
           (fun m r pts depth t => Permutation (points_of t) pts)).
  - intros. simpl. reflexivity.
  - intros m r pts depth _ Hfn. discriminate.
  - intros m r pts depth cs _ _ Hrel _ _.
    rewrite points_of_internal, <- (buckets_perm dim m pts).
    apply flat_map_Forall2_perm.
    eapply Forall2_impl; [|exact Hrel].
    intros n [c|] Hc; simpl in Hc.
    + apply Hc.
    + rewrite Hc. constructor.
  - intros. assumption.
  - intros. rewrite points_of_internal.
    induction (nnodes dim); simpl; auto.
Qed.

Lemma worker_covers (fuel : nat) (m : Point) (r : Q) (pts : list Point)
      (depth : nat) (t : Node) :
  worker dim fuel m r pts default_fn depth = Some t ->
  0 <= r ->
  (forall p d, In p pts -> (d < dim)%nat ->
               coord m d - r <= coord p d /\ coord p d <= coord m d + r) ->
  forall x p, In x (subnodes t) -> pt x = Some p -> in_region dim x p.
Proof.
  revert fuel m r pts depth t.
  assert (Hslot : forall m r pts n,
             0 <= r ->
             (forall p d, In p pts -> (d < dim)%nat ->
                          coord m d - r <= coord p d /\ coord p d <= coord m d + r) ->
             forall p d, In p (node_pts dim m pts n) -> (d < dim)%nat ->
                         coord (new_mid dim m (r / 2) n) d - r / 2 <= coord p d /\
                         coord p d <= coord (new_mid dim m (r / 2) n) d + r / 2).
  { intros m r pts n Hr Hin p d Hp Hd.
    apply node_pts_In in Hp. destruct Hp as [Hp <-].
    specialize (Hin p d Hp Hd).
    rewrite coord_new_mid, orthant_testbit by exact Hd.
    destruct (Qltb (coord m d) (coord p d)) eqn:E.
    - apply Qltb_lt in E. qhalf. lra.
    - apply Qltb_ge in E. qhalf. lra. }
  apply (worker_ind dim default_fn
           (fun m r pts depth t =>
              0 <= r ->
              (forall p d, In p pts -> (d < dim)%nat ->
                           coord m d - r <= coord p d /\ coord p d <= coord m d + r) ->
              forall x p, In x (subnodes t) -> pt x = Some p -> in_region dim x p)).
  - intros m r p0 depth Hr Hin x p [<-|[]] Hp d Hd. simpl in Hp. injection Hp as <-.
    simpl. rewrite coord_map_seq by exact Hd. apply Hin; [now left|exact Hd].
  - intros m r pts depth _ Hfn. discriminate.
  - intros m r pts depth cs _ _ Hrel _ _ Hr Hin x p Hx Hp.
    apply In_subnodes_internal in Hx. destruct Hx as [->|(c & Hc & Hx)]; [discriminate|].
    destruct (Forall2_In_r _ _ _ _ Hrel Hc) as (n & _ & _ & HP).
    apply (HP ltac:(qhalf; lra) (Hslot m r pts n Hr Hin) x p Hx Hp).
  - intros m r pts depth n c _ _ _ _ _ Hall HP Hr Hin.
    apply HP; [qhalf; lra|].
    intros p d Hp Hd. apply (Hslot m r pts n Hr Hin); [|exact Hd].
    rewrite Hall. exact Hp.
  - intros m r depth _ Hr Hin x p Hx Hp.
    apply In_subnodes_internal in Hx. destruct Hx as [->|(c & Hc & Hx)]; [discriminate|].
    apply repeat_spec in Hc. discriminate.
Qed.

Lemma in_region_in_node (x : Node) (p : Point) :
  in_region dim x p -> in_node x p dim = true.
Proof.
  intro H. unfold in_node. apply forallb_forall. intros d Hd. apply in_seq in Hd.
  destruct (H d ltac:(lia)) as [H1 H2].
  apply negb_true_iff, orb_false_iff. split; apply Qltb_ge; unfold locate_eps; lra.
Qed.

Lemma root_covers (range : nat -> Q) (pts : list Point) :
  range_bounds dim range pts ->
  forall p d, In p pts -> (d < dim)%nat ->
              coord (root_mid dim range) d - root_radius dim range <= coord p d /\
              coord p d <= coord (root_mid dim range) d + root_radius dim range.
Proof.
  intros Hb p d Hp Hd. destruct (Hb p d Hp Hd) as [H1 H2].
  unfold root_mid.
  rewrite (coord_map_seq
             (fun d => (range (d * dim)%nat + range (d * dim + 1)%nat) / 2) dim d Hd).
  pose proof (root_radius_fold
                (fun d => (range (d * dim + 1)%nat - range (d * dim)%nat) / 2)
                (seq 0 dim) 0) as (_ & Hall & _).
  fold (root_radius dim range) in Hall.
  assert (Hin : In d (seq 0 dim)) by (apply in_seq; lia).
  specialize (Hall d Hin). simpl in Hall. qhalf. lra.
Qed.

End Coverage.



(** * Heaps *)

Lemma ND_lt_false (a b : NodeDistance) :
  ND_lt a b = false <-> distance a <= distance b.
Proof. unfold ND_lt. apply Qltb_ge. Qed.

Lemma is_heap_nil : is_heap [].
Proof. intros i a b _ _ H. destruct i; discriminate. Qed.

Lemma is_heap_one (x : NodeDistance) : is_heap [x].
Proof.
  intros i a b Hi _ H. destruct i as [|[|i]]; try discriminate. lia.
Qed.

(** The first element of a heap has the least distance. *)
Lemma heap_root_min (x : NodeDistance) (v : list NodeDistance) :
  is_heap (x :: v) -> forall y, In y v -> distance x <= distance y.
Proof.
  intro H.
  assert (Hall : forall i b, nth_error (x :: v) i = Some b -> distance x <= distance b).
  { induction i as [i IH] using lt_wf_ind. intros b Hb.
    destruct i as [|i]; [injection Hb as <-; apply Qle_refl|].
    assert (Hlt : (S i < length (x :: v))%nat)
      by (apply nth_error_Some; congruence).
    assert (Hpar : ((S i - 1) / 2 < S i)%nat).
    { apply Nat.Div0.div_lt_upper_bound. lia. }
    destruct (nth_error (x :: v) ((S i - 1) / 2)) as [a|] eqn:Ea.
    - apply Qle_trans with (distance a).
      + apply (IH _ Hpar a Ea).
      + apply ND_lt_false. apply (H (S i) a b); auto. lia.
    - apply nth_error_None in Ea. lia. }
  intros y Hy. apply In_nth_error in Hy. destruct Hy as [i Hi].
  apply (Hall (S i) y Hi).
Qed.

Lemma heap_insert_perm (x : NodeDistance) (v : list NodeDistance) :
  Permutation (heap_insert x v) (x :: v).
Proof.
  induction v as [|y v IH]; simpl; [reflexivity|].
  destruct (Qle_bool (distance x) (distance y)); [reflexivity|].
  rewrite IH. apply perm_swap.
Qed.

Lemma heap_insert_sorted (x : NodeDistance) (v : list NodeDistance) :
  StronglySorted by_distance v -> StronglySorted by_distance (heap_insert x v).
Proof.
  induction v as [|y v IH]; simpl; intro Hs.
  - constructor; constructor.
  - inversion Hs as [|? ? Hv Hy]; subst.
    destruct (Qle_bool (distance x) (distance y)) eqn:E.
    + apply Qle_bool_iff in E. constructor; [exact Hs|].
      constructor; [exact E|].
      eapply Forall_impl; [|exact Hy]. intros z Hz. unfold by_distance in *. lra.
    + constructor; [now apply IH|].
      apply (Permutation_Forall (Permutation_sym (heap_insert_perm x v))).
      constructor; [|exact Hy].
      unfold by_distance.
      assert (~ distance x <= distance y).
      { intro Hle. apply Qle_bool_iff in Hle. congruence. }
      lra.
Qed.

Lemma heap_sort_perm (v : list NodeDistance) : Permutation (heap_sort v) v.
Proof.
  induction v as [|x v IH]; simpl; [constructor|].
  rewrite heap_insert_perm. now constructor.
Qed.

Lemma heap_sort_sorted (v : list NodeDistance) : StronglySorted by_distance (heap_sort v).
Proof.
  induction v as [|x v IH]; simpl; [constructor|]. now apply heap_insert_sorted.
Qed.

Lemma sorted_nth_error (v : list NodeDistance) (i j : nat) (a b : NodeDistance) :
  StronglySorted by_distance v -> (i < j)%nat ->
  nth_error v i = Some a -> nth_error v j = Some b -> distance a <= distance b.
Proof.
  intro Hs. revert i j. induction Hs as [|x v Hs IH Hx]; intros i j Hij Ha Hb.
  - destruct i; discriminate.
  - destruct j as [|j]; [lia|]. simpl in Hb. destruct i as [|i]; simpl in Ha.
    + injection Ha as <-. rewrite Forall_forall in Hx.
      apply Hx. eapply nth_error_In. exact Hb.
    + apply (IH i j); auto. lia.
Qed.

Lemma sorted_is_heap (v : list NodeDistance) :
  StronglySorted by_distance v -> is_heap v.
Proof.
  intros Hs i a b Hi Ha Hb. apply ND_lt_false.
  apply (sorted_nth_error v ((i - 1) / 2) i a b Hs); auto.
  apply Nat.Div0.div_lt_upper_bound. lia.
Qed.

(** Sorting implements the heap algorithms. *)
Lemma sort_heap_contract : heap_contract sort_heap.
Proof.
  split.
  - intros v x _. split.
    + apply sorted_is_heap, heap_sort_sorted.
    + simpl. rewrite heap_sort_perm. apply Permutation_sym, Permutation_cons_append.
  - intros x v _. exists (heap_sort v). split; [reflexivity|]. split.
    + apply sorted_is_heap, heap_sort_sorted.
    + apply heap_sort_perm.
Qed.

(** * The search loop *)

Section SearchLoop.

Variable dim : nat.
Context {heap : HeapAlgorithms}.
Variable uninit : Point -> Node -> nat -> Q.
Hypothesis heap_ok : heap_contract heap.

Lemma push_children_spec (p : Point) (kth : Q) (cs : list (option Node))
      (pq : list NodeDistance) :
  is_heap pq ->
  is_heap (push_children dim uninit p kth cs pq) /\
  Permutation (push_children dim uninit p kth cs pq) (pq ++ pushed dim uninit p kth cs).
Proof.
  revert pq. induction cs as [|c cs IH]; intros pq Hpq; simpl.
  - rewrite app_nil_r. auto.
  - destruct c as [c|]; [|now apply IH].
    destruct (Qltb (min_pt_dist_to_node dim uninit p c) kth).
    + destruct (push_heap_spec heap heap_ok pq (mkND c (min_pt_dist_to_node dim uninit p c)) Hpq)
        as [Hh Hp].
      destruct (IH _ Hh) as [Hh' Hp']. split; [exact Hh'|].
      rewrite Hp', Hp. simpl. apply Permutation_middle.
    + now apply IH.
Qed.

(** The loop body on a heap: the popped entry is the first one. *)
Lemma knn_step_spec (k : nat) (p : Point) (eps : Q) (qr : list (Point * Q))
      (x : NodeDistance) (v : list NodeDistance) :
  is_heap (x :: v) ->
  exists v',
    is_heap v' /\ Permutation v' v /\
    knn_step dim uninit k p eps qr x v =
    match nodes (node x) with
    | None =>
        match pt (node x) with
        | None => Crash NullPoint
        | Some np => Continue (add_result k (np, sqdist dim np p) qr) v'
        end
    | Some cs =>
        match kth_dist k qr with
        | None => Crash EmptyResult
        | Some kth =>
            if Qle_bool kth ((1 + eps) * distance x) then Stop qr
            else Continue qr (push_children dim uninit p kth cs v')
        end
    end.
Proof.
  intro H. destruct (pop_heap_spec heap heap_ok x v H) as (v' & Hpop & Hh & Hp).
  exists v'. split; [exact Hh|]. split; [exact Hp|].
  unfold knn_step. rewrite Hpop, last_last, removelast_last. reflexivity.
Qed.

(** Invariants of the loop. *)
Lemma knn_loop_invariant (k : nat) (p : Point) (eps : Q)
      (Inv : list (Point * Q) -> list NodeDistance -> Prop)
      (Post : result (list (Point * Q) * exit) -> Prop) :
  (forall qr, Inv qr [] -> Post (Ok (qr, QueueEmpty))) ->
  (forall qr x v,
      Inv qr (x :: v) ->
      match knn_step dim uninit k p eps qr x v with
      | Continue qr' pq' => Inv qr' pq'
      | Stop qr' => Post (Ok (qr', Break))
      | Crash f => Post (Undefined f)
      end) ->
  Post OutOfFuel ->
  forall fuel qr pq, Inv qr pq -> Post (knn_loop dim uninit fuel k p eps qr pq).
Proof.
  intros Hend Hstep Hfuel. induction fuel as [|fuel IH]; intros qr pq HI.
  - destruct pq; simpl; auto.
  - destruct pq as [|x v]; simpl; [auto|].
    specialize (Hstep qr x v HI).
    destruct (knn_step dim uninit k p eps qr x v); auto.
Qed.

Lemma queue_count_perm (a b : list NodeDistance) :
  Permutation a b -> queue_count a = queue_count b.
Proof.
  unfold queue_count. induction 1; simpl; lia.
Qed.

Lemma queue_count_app (a b : list NodeDistance) :
  queue_count (a ++ b) = (queue_count a + queue_count b)%nat.
Proof.
  unfold queue_count. rewrite map_app, list_sum_app. reflexivity.
Qed.

Lemma pushed_count (p : Point) (kth : Q) (cs : list (option Node)) :
  (queue_count (pushed dim uninit p kth cs) <=
   length (flat_map (fun c => match c with Some c => subnodes c | None => [] end) cs))%nat.
Proof.
  induction cs as [|[c|] cs IH]; simpl; auto.
  unfold pushed in *. simpl. rewrite length_app.
  destruct (Qltb (min_pt_dist_to_node dim uninit p c) kth); simpl.
  - change (list_sum (map (fun nd => node_count (node nd)) ?l)) with (queue_count l).
    unfold queue_count in *. simpl. unfold node_count at 1. lia.
  - unfold queue_count in *. lia.
Qed.

Lemma node_count_internal (x : Node) (cs : list (option Node)) :
  nodes x = Some cs ->
  node_count x =
  S (length (flat_map (fun c => match c with Some c => subnodes c | None => [] end) cs)).
Proof.
  destruct x as [ns m r q]; simpl. intros ->. reflexivity.
Qed.

Lemma node_count_pos (x : Node) : (0 < node_count x)%nat.
Proof. destruct x. unfold node_count. simpl. lia. Qed.

(** Each iteration removes a node from the trees of the queue, so a fuel of
    their number of nodes is enough. *)
Lemma knn_loop_fuel (k : nat) (p : Point) (eps : Q) (fuel : nat) :
  forall qr pq,
    is_heap pq -> (queue_count pq <= fuel)%nat ->
    knn_loop dim uninit fuel k p eps qr pq <> OutOfFuel.
Proof.
  induction fuel as [|fuel IH]; intros qr pq Hh Hc.
  - destruct pq as [|x v]; simpl; [discriminate|].
    unfold queue_count in Hc. simpl in Hc. pose proof (node_count_pos (node x)). lia.
  - destruct pq as [|x v]; simpl; [discriminate|].
    destruct (knn_step_spec k p eps qr x v Hh) as (v' & Hh' & Hp & ->).
    assert (Hv : (queue_count v' + node_count (node x) <= S fuel)%nat).
    { rewrite (queue_count_perm _ _ Hp). unfold queue_count in *. simpl in Hc. lia. }
    destruct (nodes (node x)) as [cs|] eqn:En.
    + destruct (kth_dist k qr) as [kth|]; [|discriminate].
      destruct (Qle_bool kth ((1 + eps) * distance x)); [discriminate|].
      destruct (push_children_spec p kth cs v' Hh') as [Hh'' Hp''].
      apply IH; [exact Hh''|].
      rewrite (queue_count_perm _ _ Hp''), queue_count_app.
      pose proof (pushed_count p kth cs). rewrite (node_count_internal _ _ En) in Hv. lia.
    + destruct (pt (node x)); [|discriminate].
      apply IH; [exact Hh'|]. pose proof (node_count_pos (node x)). lia.
Qed.

(** More fuel does not change the outcome of a run that ended. *)
Lemma knn_loop_more_fuel (k : nat) (p : Point) (eps : Q) (fuel : nat) :
  forall qr pq fuel',
    (fuel <= fuel')%nat -> knn_loop dim uninit fuel k p eps qr pq <> OutOfFuel ->
    knn_loop dim uninit fuel' k p eps qr pq = knn_loop dim uninit fuel k p eps qr pq.
Proof.
  induction fuel as [|fuel IH]; intros qr pq fuel' Hle H.
  - destruct pq; simpl in *; [|congruence]. destruct fuel'; reflexivity.
  - destruct fuel' as [|fuel']; [lia|].
    destruct pq as [|x v]; simpl in *; [reflexivity|].
    destruct (knn_step dim uninit k p eps qr x v); auto. apply IH; [lia|exact H].
Qed.

End SearchLoop.

(** ** Result lists *)

Lemma insert_result_perm (x : Point * Q) (qr : list (Point * Q)) :
  Permutation (insert_result x qr) (x :: qr).
Proof.
  induction qr as [|y qr IH]; simpl; [reflexivity|].
  destruct (Qltb (snd y) (snd x)); [|reflexivity].
  rewrite IH. apply perm_swap.
Qed.

Lemma insert_result_sorted (x : Point * Q) (qr : list (Point * Q)) :
  StronglySorted le_snd qr -> StronglySorted le_snd (insert_result x qr).
Proof.
  induction qr as [|y qr IH]; simpl; intro Hs.
  - constructor; constructor.
  - inversion Hs as [|? ? Hq Hy]; subst.
    destruct (Qltb (snd y) (snd x)) eqn:E.
    + apply Qltb_lt in E. constructor; [now apply IH|].
      apply (Permutation_Forall (Permutation_sym (insert_result_perm x qr))).
      constructor; [unfold le_snd; lra|exact Hy].
    + apply Qltb_ge in E. constructor; [exact Hs|].
      constructor; [exact E|].
      eapply Forall_impl; [|exact Hy]. intros z Hz. unfold le_snd in *. lra.
Qed.

Lemma removelast_sorted {A} (R : A -> A -> Prop) (l : list A) :
  StronglySorted R l -> StronglySorted R (removelast l).
Proof.
  induction 1 as [|x l Hs IH Hx]; simpl; [constructor|].
  destruct l as [|y l]; [constructor|].
  constructor; [exact IH|].
  rewrite Forall_forall in *. intros z Hz. apply Hx.
  clear -Hz. revert y Hz. induction l as [|w l IHl]; intros y Hz; simpl in *.
  - contradiction.
  - destruct Hz as [<-|Hz]; [now left|right; now apply IHl].
Qed.

Lemma removelast_length {A} (l : list A) : length (removelast l) = pred (length l).
Proof.
  induction l as [|x l IH]; simpl; [reflexivity|].
  destruct l; simpl in *; [reflexivity|]. rewrite IH. reflexivity.
Qed.

Lemma insert_result_length (x : Point * Q) (qr : list (Point * Q)) :
  length (insert_result x qr) = S (length qr).
Proof. apply (Permutation_length (insert_result_perm x qr)). Qed.

Lemma add_result_sorted (k : nat) (x : Point * Q) (qr : list (Point * Q)) :
  StronglySorted le_snd qr -> StronglySorted le_snd (add_result k x qr).
Proof.
  intro H. unfold add_result.
  destruct (Nat.ltb k (length (insert_result x qr)));
    [apply removelast_sorted|]; now apply insert_result_sorted.
Qed.

Lemma add_result_length (k : nat) (x : Point * Q) (qr : list (Point * Q)) :
  (length qr <= k)%nat ->
  length (add_result k x qr) = Nat.min (S (length qr)) k.
Proof.
  intro H. unfold add_result.
  destruct (Nat.ltb_spec k (length (insert_result x qr))) as [Hlt|Hge];
    [rewrite removelast_length|]; rewrite insert_result_length in *; lia.
Qed.

Lemma kth_dist_defined (k : nat) (qr : list (Point * Q)) :
  (1 <= k)%nat -> exists kth, kth_dist k qr = Some kth.
Proof.
  intro Hk. unfold kth_dist, back_second.
  destruct (Nat.ltb_spec (length qr) k) as [Hlt|Hge]; [eauto|].
  destruct (rev qr) as [|y l] eqn:E; [|eauto].
  apply (f_equal (@length _)) in E. rewrite length_rev in E. simpl in E. lia.
Qed.

(** ** Trees in the queue *)

Lemma subnodes_child (x : Node) (cs : list (option Node)) (c : Node) :
  nodes x = Some cs -> In (Some c) cs -> incl (subnodes c) (subnodes x).
Proof.
  destruct x as [ns m r q]; simpl. intros -> Hc y Hy.
  right. apply in_flat_map. exists (Some c). auto.
Qed.

Lemma points_of_node (x : Node) (cs : list (option Node)) :
  nodes x = Some cs ->
  points_of x = flat_map (fun c => match c with Some c => points_of c | None => [] end) cs.
Proof. destruct x as [ns m r q]; simpl. intros ->. reflexivity. Qed.

Lemma points_of_leaf (x : Node) (p : Point) :
  nodes x = None -> pt x = Some p -> points_of x = [p].
Proof. destruct x as [ns m r q]; simpl. intros -> ->. reflexivity. Qed.

Lemma In_pushed (dim : nat) (uninit : Point -> Node -> nat -> Q) (p : Point)
      (kth : Q) (cs : list (option Node)) (nd : NodeDistance) :
  In nd (pushed dim uninit p kth cs) ->
  In (Some (node nd)) cs /\
  distance nd = min_pt_dist_to_node dim uninit p (node nd) /\
  distance nd < kth.
Proof.
  unfold pushed. rewrite in_flat_map. intros ([c|] & Hc & H); [|contradiction].
  destruct (Qltb (min_pt_dist_to_node dim uninit p c) kth) eqn:E; [|contradiction].
  destruct H as [<-|[]]. simpl. apply Qltb_lt in E. auto.
Qed.

Lemma pushed_points (dim : nat) (uninit : Point -> Node -> nat -> Q) (p : Point)
      (kth : Q) (cs : list (option Node)) :
  (queue_points (pushed dim uninit p kth cs) <=
   length (flat_map (fun c => match c with Some c => points_of c | None => [] end) cs))%nat.
Proof.
  unfold queue_points, pushed.
  induction cs as [|[c|] cs IH]; simpl; auto.
  rewrite length_app, map_app, list_sum_app.
  destruct (Qltb (min_pt_dist_to_node dim uninit p c) kth); simpl; lia.
Qed.

Lemma queue_points_perm (a b : list NodeDistance) :
  Permutation a b -> queue_points a = queue_points b.
Proof. unfold queue_points. induction 1; simpl; lia. Qed.

Lemma queue_points_app (a b : list NodeDistance) :
  queue_points (a ++ b) = (queue_points a + queue_points b)%nat.
Proof. unfold queue_points. rewrite map_app, list_sum_app. reflexivity. Qed.

Section SearchProps.

Variable dim : nat.
Context {heap : HeapAlgorithms}.
Variable uninit : Point -> Node -> nat -> Q.
Hypothesis heap_ok : heap_contract heap.

(** What one iteration does to the result list and to the queue. *)
Lemma knn_step_cases (k : nat) (p : Point) (eps : Q) (qr : list (Point * Q))
      (x : NodeDistance) (v : list NodeDistance) :
  is_heap (x :: v) ->
  match knn_step dim uninit k p eps qr x v with
  | Continue qr' pq' =>
      is_heap pq' /\
      ((exists np, nodes (node x) = None /\ pt (node x) = Some np /\
                   qr' = add_result k (np, sqdist dim np p) qr /\
                   Permutation pq' v) \/
       (exists cs kth, nodes (node x) = Some cs /\ kth_dist k qr = Some kth /\
                       ~ kth <= (1 + eps) * distance x /\
                       qr' = qr /\
                       Permutation pq' (v ++ pushed dim uninit p kth cs)))
  | Stop qr' =>
      qr' = qr /\
      exists cs kth, nodes (node x) = Some cs /\ kth_dist k qr = Some kth /\
                     kth <= (1 + eps) * distance x
  | Crash NullPoint => nodes (node x) = None /\ pt (node x) = None
  | Crash EmptyResult => (exists cs, nodes (node x) = Some cs) /\ kth_dist k qr = None
  end.
Proof.
  intro H. destruct (knn_step_spec dim uninit heap_ok k p eps qr x v H) as (v' & Hh & Hp & ->).
  destruct (nodes (node x)) as [cs|] eqn:En.
  - destruct (kth_dist k qr) as [kth|] eqn:Ek; [|eauto].
    destruct (Qle_bool kth ((1 + eps) * distance x)) eqn:El.
    + apply Qle_bool_iff in El. split; [reflexivity|]. eauto 6.
    + destruct (push_children_spec dim uninit heap_ok p kth cs v' Hh) as [Hh' Hp'].
      split; [exact Hh'|]. right. exists cs, kth. repeat split; auto.
      * intro Hle. apply Qle_bool_iff in Hle. congruence.
      * rewrite Hp'. now apply Permutation_app_tail.
  - destruct (pt (node x)) as [np|] eqn:Ep; [|auto].
    split; [exact Hh|]. left. exists np. auto.
Qed.

(** The search never dereferences a null point on a tree whose childless
    nodes all hold a point. *)
Lemma knn_loop_no_null (k : nat) (p : Point) (eps : Q) (root : Node) (fuel : nat) :
  (forall x, In x (subnodes root) -> nodes x = None -> pt x <> None) ->
  knn_loop dim uninit fuel k p eps [] [mkND root 0] <> Undefined NullPoint.
Proof.
  intro Hwf.
  apply (knn_loop_invariant dim uninit k p eps
           (fun qr pq => is_heap pq /\
                         forall nd, In nd pq -> incl (subnodes (node nd)) (subnodes root))
           (fun out => out <> Undefined NullPoint)); try discriminate.
  - intros qr x v [Hh Hin].
    pose proof (knn_step_cases k p eps qr x v Hh) as Hc.
    destruct (knn_step dim uninit k p eps qr x v) as [qr' pq'|qr'|[|]];
      try discriminate.
    + destruct Hc as [Hh' [(np & _ & _ & _ & Hp)|(cs & kth & En & _ & _ & _ & Hp)]];
        (split; [exact Hh'|]); intros nd Hnd.
      * apply Hin. right. apply (Permutation_in _ Hp Hnd).
      * apply (Permutation_in _ Hp), in_app_or in Hnd. destruct Hnd as [Hnd|Hnd].
        -- apply Hin. now right.
        -- apply In_pushed in Hnd. destruct Hnd as (Hc & _).
           intros y Hy. apply (Hin x (or_introl eq_refl)).
           apply (subnodes_child _ _ _ En Hc y Hy).
    + destruct Hc as [En Ep]. exfalso.
      apply (Hwf (node x)); auto.
      apply (Hin x (or_introl eq_refl)), In_subnodes_self.
  - split; [apply is_heap_one|]. intros nd [<-|[]]. apply incl_refl.
Qed.

(** With [k >= 1] the k-th distance is always defined. *)
Lemma knn_loop_no_empty_back (k : nat) (p : Point) (eps : Q) (fuel : nat)
      (qr : list (Point * Q)) (pq : list NodeDistance) :
  (1 <= k)%nat -> is_heap pq ->
  knn_loop dim uninit fuel k p eps qr pq <> Undefined EmptyResult.
Proof.
  intros Hk Hh.
  apply (knn_loop_invariant dim uninit k p eps
           (fun qr pq => is_heap pq)
           (fun out => out <> Undefined EmptyResult)); try discriminate; auto.
  clear Hh qr pq. intros qr x v Hh.
  pose proof (knn_step_cases k p eps qr x v Hh) as Hc.
  destruct (knn_step dim uninit k p eps qr x v) as [qr' pq'|qr'|[|]];
    try discriminate; try tauto.
  destruct Hc as [_ Hn]. destruct (kth_dist_defined k qr Hk) as [kth Hkth]. congruence.
Qed.

End SearchProps.

(** C9. The search loop terminates on every tree: with a fuel of the number
    of nodes of the tree or more the run does not depend on the fuel and
    does not exhaust it.  For [k >= 1], on a tree whose childless nodes all
    hold a point (every tree built with the default stop predicate), it ends
    with a result list, by the empty queue or by the [break]. *)
Theorem knn_terminates (dim : nat) (heap : HeapAlgorithms)
        (uninit : Point -> Node -> nat -> Q)
        (root : Node) (k : nat) (q : Point) (eps : Q) :
  heap_contract heap ->
  exists out,
    (forall fuel, (node_count root <= fuel)%nat ->
                  knn_loop dim uninit fuel k q eps [] [mkND root 0] = out) /\
    out <> OutOfFuel /\
    ((1 <= k)%nat ->
     (forall x, In x (subnodes root) -> nodes x = None -> pt x <> None) ->
     exists qr e, out = Ok (qr, e) /\ (e = QueueEmpty \/ e = Break)).
Proof.
  intro heap_ok.
  exists (knn_loop dim uninit (node_count root) k q eps [] [mkND root 0]).
  assert (Hfuel : knn_loop dim uninit (node_count root) k q eps [] [mkND root 0]
                  <> OutOfFuel).
  { apply (knn_loop_fuel dim uninit heap_ok); [apply is_heap_one|].
    unfold queue_count. simpl. lia. }
  split; [|split].
  - intros fuel Hle. now apply knn_loop_more_fuel.
  - exact Hfuel.
  - intros Hk Hwf.
    pose proof (knn_loop_no_null dim uninit heap_ok k q eps root (node_count root) Hwf) as Hn.
    pose proof (knn_loop_no_empty_back dim uninit heap_ok k q eps (node_count root) []
                                       [mkND root 0] Hk (is_heap_one _)) as He.
    destruct (knn_loop dim uninit (node_count root) k q eps [] [mkND root 0])
      as [[qr e]|[|]|]; try congruence.
    exists qr, e. split; [reflexivity|]. destruct e; auto.
Qed.

Lemma leaf_xor_internal_point (x : Node) :
  leaf_xor_internal x -> nodes x = None -> pt x <> None.
Proof.
  intros [[[_ H] _]|[[H _] _]] Hn; [exact H|contradiction].
Qed.

(** C10. Every node of a tree built with the default stop predicate is
    either a leaf (null children, a point) or an internal node (children, no
    point), and never both; hence the leaf branch of [knn] never
    dereferences a null point on such a tree. *)
Theorem leaf_or_internal (dim fuel : nat) (pts : list Point) (range : nat -> Q)
        (root : Node) :
  CompressedQuadtree dim fuel pts range default_fn = Some root ->
  (forall x, In x (subnodes root) -> leaf_xor_internal x) /\
  (forall (heap : HeapAlgorithms) (uninit : Point -> Node -> nat -> Q)
          (fuel' k : nat) (q : Point) (eps : Q),
      heap_contract heap ->
      knn dim uninit fuel' root k q eps <> Undefined NullPoint).
Proof.
  intro Hbuild.
  pose proof (worker_leaf_xor_internal dim _ _ _ _ _ _ Hbuild) as Hwf.
  split; [exact Hwf|].
  intros heap uninit fuel' k q eps heap_ok.
  pose proof (knn_loop_no_null dim uninit heap_ok k q eps root fuel'
                (fun x Hx => leaf_xor_internal_point x (Hwf x Hx))) as Hn.
  unfold knn.
  destruct (knn_loop dim uninit fuel' k q eps [] [mkND root 0]) as [[qr e]|[|]|];
    congruence.
Qed.

Lemma leaf_or_internal_witness :
  (forall x, In x (subnodes ex_root) -> leaf_xor_internal x) /\
  (forall (heap : HeapAlgorithms) (uninit : Point -> Node -> nat -> Q)
          (fuel' k : nat) (q : Point) (eps : Q),
      heap_contract heap ->
      knn 2 uninit fuel' ex_root k q eps <> Undefined NullPoint).
Proof.
  apply (leaf_or_internal 2 10 ex_pts ex_range ex_root).
  vm_compute. reflexivity.
Defined.

(** ** Order and length of the result (C7) *)

Lemma flat_map_Forall2_length {A B C} (f : A -> list C) (g : B -> list C)
      (l : list A) (r : list B) :
  Forall2 (fun a b => (length (g b) <= length (f a))%nat) l r ->
  (length (flat_map g r) <= length (flat_map f l))%nat.
Proof.
  induction 1; simpl; [lia|]. rewrite !length_app. lia.
Qed.

(** Whatever the stop predicate, a built tree stores no more points than it
    was given. *)
Lemma worker_points_le (dim : nat) (fn : EndBuildFn) (fuel : nat) (m : Point) (r : Q)
      (pts : list Point) (depth : nat) (t : Node) :
  worker dim fuel m r pts fn depth = Some t ->
  (length (points_of t) <= length pts)%nat.
Proof.
  revert fuel m r pts depth t.
  apply (worker_ind dim fn
           (fun m r pts depth t => (length (points_of t) <= length pts)%nat)).
  - intros. simpl. lia.
  - intros. simpl. lia.
  - intros m r pts depth cs _ _ Hrel _ _.
    rewrite points_of_internal, <- (Permutation_length (buckets_perm dim m pts)).
    apply flat_map_Forall2_length.
    eapply Forall2_impl; [|exact Hrel].
    intros n [c|] Hc; simpl in Hc; [apply Hc|simpl; lia].
  - intros. assumption.
  - intros. rewrite points_of_internal.
    induction (nnodes dim); simpl; auto.
Qed.

Lemma exists_bad_node (l : list Node) :
  ~ (forall x, In x l -> nodes x = None -> pt x <> None) ->
  exists x, In x l /\ nodes x = None /\ pt x = None.
Proof.
  induction l as [|y l IH]; intro Hex; [exfalso; apply Hex; intros x []|].
  destruct (nodes y) as [cs|] eqn:En.
  - destruct IH as (x & Hx & H).
    + intro H. apply Hex. intros x [<-|Hx]; [congruence|auto].
    + exists x. split; [now right|exact H].
  - destruct (pt y) as [py|] eqn:Ep; [|exists y; split; [now left|auto]].
    destruct IH as (x & Hx & H).
    + intro H. apply Hex. intros x [<-|Hx]; [congruence|auto].
    + exists x. split; [now right|exact H].
Qed.

Section Ordering.

Variable dim : nat.
Context {heap : HeapAlgorithms}.
Variable uninit : Point -> Node -> nat -> Q.
Hypothesis heap_ok : heap_contract heap.

Lemma knn_loop_ordered (k : nat) (p : Point) (eps : Q) (root : Node) (fuel : nat) :
  match knn_loop dim uninit fuel k p eps [] [mkND root 0] with
  | Ok (qr, _) =>
      StronglySorted le_snd qr /\ (length qr <= k)%nat /\
      (length qr <= length (points_of root))%nat
  | _ => True
  end.
Proof.
  apply (knn_loop_invariant dim uninit k p eps (ordering_inv k root)
           (fun out => match out with
                       | Ok (qr, _) =>
                           StronglySorted le_snd qr /\ (length qr <= k)%nat /\
                           (length qr <= length (points_of root))%nat
                       | _ => True
                       end)); auto.
  - intros qr (_ & Hs & Hk & Hn). repeat split; auto. lia.
  - intros qr x v (Hh & Hs & Hk & Hn).
    pose proof (knn_step_cases dim uninit heap_ok k p eps qr x v Hh) as Hc.
    destruct (knn_step dim uninit k p eps qr x v) as [qr' pq'|qr'|f]; auto.
    + destruct Hc as [Hh' [(np & En & Ep & -> & Hp)|(cs & kth & En & _ & _ & -> & Hp)]];
        (split; [exact Hh'|]).
      * split; [now apply add_result_sorted|].
        rewrite (add_result_length k _ qr Hk), (queue_points_perm _ _ Hp).
        unfold queue_points in Hn. simpl in Hn.
        rewrite (points_of_leaf _ _ En Ep) in Hn. simpl in Hn.
        unfold queue_points. split; lia.
      * split; [exact Hs|]. split; [exact Hk|].
        rewrite (queue_points_perm _ _ Hp), queue_points_app.
        pose proof (pushed_points dim uninit p kth cs) as Hle.
        rewrite <- (points_of_node _ _ En) in Hle.
        unfold queue_points in Hn at 1. simpl in Hn.
        fold (queue_points v) in Hn. lia.
    + destruct Hc as [-> _]. repeat split; auto. lia.
  - unfold ordering_inv, queue_points. simpl.
    split; [apply is_heap_one|]. split; [constructor|]. lia.
Qed.

End Ordering.

(** C7. For a tree built with any stop predicate, [k >= 1] and a fuel of the
    number of nodes of the tree or more, [knn] ends; the list it returns is
    non-decreasing in its distance component and has at most [k] and at
    most [n] entries.  (It can only fail to return a list on a tree that has
    a node with neither children nor point, which the default stop predicate
    never builds.) *)
Theorem knn_ordered (dim : nat) (heap : HeapAlgorithms)
        (uninit : Point -> Node -> nat -> Q)
        (fuel0 : nat) (pts : list Point) (range : nat -> Q) (fn : EndBuildFn)
        (root : Node) (k : nat) (q : Point) (eps : Q) (fuel : nat) :
  heap_contract heap ->
  CompressedQuadtree dim fuel0 pts range fn = Some root ->
  (1 <= k)%nat ->
  (node_count root <= fuel)%nat ->
  match knn dim uninit fuel root k q eps with
  | Ok qr =>
      StronglySorted le_snd qr /\ (length qr <= k)%nat /\ (length qr <= length pts)%nat
  | Undefined _ =>
      exists x, In x (subnodes root) /\ nodes x = None /\ pt x = None
  | OutOfFuel => False
  end.
Proof.
  intros heap_ok Hbuild Hk Hfuel.
  pose proof (worker_points_le dim fn _ _ _ _ _ _ Hbuild) as Hn.
  pose proof (knn_loop_ordered dim uninit heap_ok k q eps root fuel) as Ho.
  assert (Hf : knn_loop dim uninit fuel k q eps [] [mkND root 0] <> OutOfFuel).
  { apply (knn_loop_fuel dim uninit heap_ok); [apply is_heap_one|].
    unfold queue_count. simpl. lia. }
  pose proof (knn_loop_no_empty_back dim uninit heap_ok k q eps fuel [] [mkND root 0] Hk
                                     (is_heap_one _)) as He.
  pose proof (knn_loop_no_null dim uninit heap_ok k q eps root fuel) as Hnull.
  unfold knn.
  destruct (knn_loop dim uninit fuel k q eps [] [mkND root 0]) as [[qr e]|[|]|];
    try congruence.
  - destruct Ho as (Hs & Hlk & Hln). repeat split; auto. lia.
  - apply exists_bad_node. intro H. now apply Hnull.
Qed.

Lemma knn_ordered_witness :
  match @knn 2 sort_heap zero_uninit 20 ex_root 3 [0;0] 0 with
  | Ok qr =>
      StronglySorted le_snd qr /\ (length qr <= 3)%nat /\ (length qr <= length ex_pts)%nat
  | Undefined _ =>
      exists x, In x (subnodes ex_root) /\ nodes x = None /\ pt x = None
  | OutOfFuel => False
  end.
Proof.
  apply (knn_ordered 2 sort_heap zero_uninit 10 ex_pts ex_range default_fn ex_root
                     3 [0;0] 0 20).
  - exact sort_heap_contract.
  - vm_compute. reflexivity.
  - lia.
  - vm_compute. lia.
Defined.

(** * The region lower bound (C3, C4) *)

Lemma outside_false (nd : Node) (p : Point) (d : nat) :
  outside nd p d = false <->
  coord (mid nd) d - radius nd <= coord p d /\ coord p d <= coord (mid nd) d + radius nd.
Proof.
  unfold outside. rewrite orb_false_iff, !Qltb_ge. tauto.
Qed.

Lemma gap_pos (nd : Node) (p : Point) (d : nat) :
  outside nd p d = true -> 0 < gap nd p d.
Proof.
  unfold outside, gap. intro H.
  destruct (Qltb (coord p d) (coord (mid nd) d - radius nd)) eqn:E1.
  - apply Qltb_lt in E1. lra.
  - simpl in H. rewrite H. apply Qltb_lt in H. lra.
Qed.

Section LowerBound.

Variable dim : nat.
Variable uninit : Point -> Node -> nat -> Q.

Lemma min_fold (val : nat -> Q) (l : list nat) (a : Q) :
  let m := fold_left (fun m d => if Qltb (val d) m then val d else m) l a in
  m <= a /\ (forall d, In d l -> m <= val d) /\ (m = a \/ exists d, In d l /\ m = val d).
Proof.
  revert a. induction l as [|x l IH]; intro a; simpl.
  - split; [apply Qle_refl|]. split; [intros d []|now left].
  - specialize (IH (if Qltb (val x) a then val x else a)). simpl in IH.
    destruct IH as (Hle & Hall & Hex).
    destruct (Qltb (val x) a) eqn:E.
    + apply Qltb_lt in E. split; [lra|]. split.
      * intros d [<-|Hd]; auto.
      * destruct Hex as [->|(d & Hd & ->)]; right; eauto.
    + apply Qltb_ge in E. split; [exact Hle|]. split.
      * intros d [<-|Hd]; [lra|auto].
      * destruct Hex as [->|(d & Hd & ->)]; [now left|right; eauto].
Qed.

Lemma min_pt_dist_step (p : Point) (nd : Node) (inside : bool) (m : Q) (d : nat) :
  (let '(dist, inside) :=
     if Qltb (coord p d) (coord (mid nd) d - radius nd) then
       (coord (mid nd) d - radius nd - coord p d, false)
     else if Qltb (coord (mid nd) d + radius nd) (coord p d) then
       (coord p d - (coord (mid nd) d + radius nd), false)
     else (uninit p nd d, inside) in
   (inside, if Qltb dist m then dist else m))
  = (inside && negb (outside nd p d),
     if Qltb (dist_read uninit nd p d) m then dist_read uninit nd p d else m).
Proof.
  unfold dist_read, outside, gap.
  destruct (Qltb (coord p d) (coord (mid nd) d - radius nd));
    [|destruct (Qltb (coord (mid nd) d + radius nd) (coord p d))];
    simpl; rewrite ?andb_false_r, ?andb_true_r; reflexivity.
Qed.

Lemma min_pt_dist_fold (p : Point) (nd : Node) (l : list nat) (inside : bool) (m : Q) :
  fold_left
    (fun '(inside, min_dist) d =>
       let '(dist, inside) :=
         if Qltb (coord p d) (coord (mid nd) d - radius nd) then
           (coord (mid nd) d - radius nd - coord p d, false)
         else if Qltb (coord (mid nd) d + radius nd) (coord p d) then
           (coord p d - (coord (mid nd) d + radius nd), false)
         else (uninit p nd d, inside) in
       (inside, if Qltb dist min_dist then dist else min_dist))
    l (inside, m)
  = (inside && forallb (fun d => negb (outside nd p d)) l,
     fold_left (fun m d => if Qltb (dist_read uninit nd p d) m
                           then dist_read uninit nd p d else m) l m).
Proof.
  revert inside m. induction l as [|d l IH]; intros inside m; cbn [fold_left forallb].
  - now rewrite andb_true_r.
  - rewrite min_pt_dist_step, IH, andb_assoc. reflexivity.
Qed.

(** [min_pt_dist_to_node] in closed form. *)
Lemma min_pt_dist_to_node_eq (p : Point) (nd : Node) :
  min_pt_dist_to_node dim uninit p nd =
  if forallb (fun d => negb (outside nd p d)) (seq 0 dim) then 0
  else let m := fold_left (fun m d => if Qltb (dist_read uninit nd p d) m
                                      then dist_read uninit nd p d else m)
                          (seq 0 dim) DBL_MAX in
       m * m.
Proof.
  unfold min_pt_dist_to_node. rewrite min_pt_dist_fold. reflexivity.
Qed.

End LowerBound.

(** C3, counterexample.  The root region of the example tree is the cube of
    center (5,5) and radius 5; the point (11,13) is outside on both
    dimensions, with gaps 1 and 3.  The code returns 1, the square of the
    smallest gap; the largest gap squared is 9.  No unassigned [dist] is
    read on this input. *)
Lemma largest_gap_counterexample :
  min_pt_dist_to_node 2 zero_uninit [11;13] ex_root == 1 /\
  largest_gap_bound 2 ex_root [11;13] == 9 /\
  ~ min_pt_dist_to_node 2 zero_uninit [11;13] ex_root
    == largest_gap_bound 2 ex_root [11;13].
Proof.
  split; [vm_compute; reflexivity|]. split; [vm_compute; reflexivity|].
  vm_compute. discriminate.
Qed.

(** C3, amended.  [min_pt_dist_to_node] returns 0 when the point is within
    the region on every dimension; when it is outside on every dimension
    (so that every [dist] compared was assigned) it returns the square of
    the smallest per-dimension gap. *)
Theorem smallest_gap_bound (dim : nat) (uninit : Point -> Node -> nat -> Q)
        (p : Point) (nd : Node) :
  ((forall d, (d < dim)%nat -> within nd p d) ->
   min_pt_dist_to_node dim uninit p nd = 0) /\
  ((1 <= dim)%nat ->
   (forall d, (d < dim)%nat -> ~ within nd p d) ->
   (forall d, (d < dim)%nat -> gap nd p d < DBL_MAX) ->
   exists d0, (d0 < dim)%nat /\
              min_pt_dist_to_node dim uninit p nd = gap nd p d0 * gap nd p d0 /\
              forall d, (d < dim)%nat -> gap nd p d0 <= gap nd p d).
Proof.
  rewrite min_pt_dist_to_node_eq. split.
  - intro Hin.
    replace (forallb (fun d => negb (outside nd p d)) (seq 0 dim)) with true; [reflexivity|].
    symmetry. apply forallb_forall. intros d Hd. apply in_seq in Hd.
    apply negb_true_iff. apply (proj2 (outside_false nd p d)). apply Hin. lia.
  - intros Hdim Hout Hmax.
    assert (Ho : forall d, (d < dim)%nat -> outside nd p d = true).
    { intros d Hd. destruct (outside nd p d) eqn:E; [reflexivity|].
      apply outside_false in E. exfalso. now apply (Hout d Hd). }
    replace (forallb (fun d => negb (outside nd p d)) (seq 0 dim)) with false.
    2:{ symmetry. destruct dim as [|dim']; [lia|]. simpl.
        rewrite (Ho 0%nat) by lia. reflexivity. }
    pose proof (min_fold (dist_read uninit nd p) (seq 0 dim) DBL_MAX) as (Hle & Hall & Hex).
    cbv zeta in *.
    assert (Hval : forall d, (d < dim)%nat -> dist_read uninit nd p d = gap nd p d).
    { intros d Hd. unfold dist_read. now rewrite Ho. }
    destruct Hex as [Heq|(d0 & Hd0 & Heq)].
    + exfalso. assert (H0 : In 0%nat (seq 0 dim)) by (apply in_seq; lia).
      specialize (Hall 0%nat H0). rewrite Heq, Hval in Hall by lia.
      assert (Hlt : gap nd p 0 < DBL_MAX) by (apply Hmax; lia).
      apply (Qlt_not_le _ _ Hlt Hall).
    + apply in_seq in Hd0. exists d0. split; [lia|]. rewrite Heq, Hval by lia.
      split; [reflexivity|]. intros d Hd.
      rewrite <- (Hval d0), <- (Hval d), <- Heq by lia.
      apply Hall, in_seq. lia.
Qed.

Lemma smallest_gap_bound_witness :
  exists d0, (d0 < 2)%nat /\
             min_pt_dist_to_node 2 zero_uninit [11;13] ex_root
             = gap ex_root [11;13] d0 * gap ex_root [11;13] d0 /\
             forall d, (d < 2)%nat -> gap ex_root [11;13] d0 <= gap ex_root [11;13] d.
Proof.
  apply (proj2 (smallest_gap_bound 2 zero_uninit [11;13] ex_root)).
  - lia.
  - intros d Hd [H1 H2]. destruct d as [|[|d]]; [| |lia]; vm_compute in H2; now apply H2.
  - intros d Hd. destruct d as [|[|d]]; [| |lia]; vm_compute; reflexivity.
Defined.

(** C4, failing input.  The leaf of the example tree that stores (10,0) has
    the region of center (7.5,2.5) and radius 2.5.  The query point (10,-1)
    is within it on dimension 0, where [dist] is read unassigned, and below
    it by 1 on dimension 1.  When the unassigned [dist] holds -100 the
    function returns 10000, more than the squared distance 1 from the query
    point to the stored point. *)
Lemma pruning_bound_failing_input :
  In [10;0] (points_of (slot ex_root 1)) /\
  min_pt_dist_to_node 2 negative_uninit [10;-1] (slot ex_root 1) == 10000 /\
  sqdist 2 [10;0] [10;-1] == 1 /\
  sqdist 2 [10;0] [10;-1] < min_pt_dist_to_node 2 negative_uninit [10;-1] (slot ex_root 1).
Proof.
  split; [vm_compute; auto|].
  split; [vm_compute; reflexivity|].
  split; vm_compute; reflexivity.
Qed.

Lemma forallb_false_ex {A} (f : A -> bool) (l : list A) :
  forallb f l = false -> exists x, In x l /\ f x = false.
Proof.
  induction l as [|a l IH]; simpl; [discriminate|].
  destruct (f a) eqn:E; simpl.
  - intro H. destruct (IH H) as (x & Hx & Hf). exists x. auto.
  - intros _. exists a. auto.
Qed.

Section Soundness.

Variable dim : nat.
Variable uninit : Point -> Node -> nat -> Q.

Lemma sqdist_fold_ge (p q : Point) (l : list nat) (a : Q) :
  a <= fold_left (fun dist d => dist + (coord p d - coord q d) * (coord p d - coord q d)) l a
  /\ forall d, In d l ->
                a + (coord p d - coord q d) * (coord p d - coord q d)
                <= fold_left (fun dist d => dist + (coord p d - coord q d) * (coord p d - coord q d))
                             l a.
Proof.
  revert a. induction l as [|x l IH]; intro a; simpl.
  - split; [apply Qle_refl|intros d []].
  - destruct (IH (a + (coord p x - coord q x) * (coord p x - coord q x))) as [H1 H2].
    assert (Hsq : forall t : Q, 0 <= t * t) by (intro t; nra).
    pose proof (Hsq (coord p x - coord q x)) as Hx.
    split; [lra|]. intros d [<-|Hd]; [exact H1|].
    specialize (H2 d Hd). lra.
Qed.

Lemma sqdist_nonneg (p q : Point) : 0 <= sqdist dim p q.
Proof. apply (sqdist_fold_ge p q (seq 0 dim) 0). Qed.

Lemma sqdist_ge_term (p q : Point) (d : nat) :
  (d < dim)%nat -> (coord p d - coord q d) * (coord p d - coord q d) <= sqdist dim p q.
Proof.
  intro Hd. pose proof (proj2 (sqdist_fold_ge p q (seq 0 dim) 0) d) as H.
  rewrite Qplus_0_l in H. apply H, in_seq. lia.
Qed.

(** The bound is a lower bound of the distance to the points of the region,
    when the contents read from the unassigned [dist] are not negative. *)
Lemma min_pt_dist_sound (q : Point) (nd : Node) (p : Point) :
  (forall d, 0 <= uninit q nd d) ->
  in_region dim nd p ->
  min_pt_dist_to_node dim uninit q nd <= sqdist dim p q.
Proof.
  intros Hu Hin. rewrite min_pt_dist_to_node_eq.
  destruct (forallb (fun d => negb (outside nd q d)) (seq 0 dim)) eqn:E;
    [apply sqdist_nonneg|].
  destruct (forallb_false_ex _ _ E) as (d0 & Hd0 & Ho).
  apply in_seq in Hd0. apply negb_false_iff in Ho.
  pose proof (min_fold (dist_read uninit nd q) (seq 0 dim) DBL_MAX) as (_ & Hall & Hex).
  cbv zeta in *.
  set (m := fold_left (fun m d => if Qltb (dist_read uninit nd q d) m
                                  then dist_read uninit nd q d else m)
                      (seq 0 dim) DBL_MAX) in *.
  assert (Hread : forall d, 0 <= dist_read uninit nd q d).
  { intro d. unfold dist_read. destruct (outside nd q d) eqn:Eo; [|apply Hu].
    apply Qlt_le_weak, gap_pos, Eo. }
  assert (Hm0 : 0 <= m).
  { destruct Hex as [->|(d & _ & ->)]; [vm_compute; discriminate|apply Hread]. }
  assert (Hmg : m <= gap nd q d0).
  { assert (Hin0 : In d0 (seq 0 dim)) by (apply in_seq; lia).
    specialize (Hall d0 Hin0). unfold dist_read in Hall. now rewrite Ho in Hall. }
  apply Qle_trans with ((coord p d0 - coord q d0) * (coord p d0 - coord q d0));
    [|apply sqdist_ge_term; lia].
  destruct (Hin d0 ltac:(lia)) as [H1 H2].
  pose proof (gap_pos nd q d0 Ho) as Hg.
  unfold gap, outside in *.
  destruct (Qltb (coord q d0) (coord (mid nd) d0 - radius nd)) eqn:E1.
  - apply Qltb_lt in E1. nra.
  - simpl in Ho. rewrite Ho in *. apply Qltb_lt in Ho. nra.
Qed.

End Soundness.

(** * Exact search (C1) *)

Section SoundTree.

Variable dim : nat.

Lemma points_of_empty_node (m : Point) (r : Q) (n : nat) :
  points_of (mkNode (Some (repeat None n)) m r None) = [].
Proof. rewrite points_of_internal. induction n; simpl; auto. Qed.

(** In a built tree the region of every node contains the points stored
    below it, when the region of the top-level call contains the points. *)
Lemma worker_sound_tree (fuel : nat) (m : Point) (r : Q) (pts : list Point)
      (depth : nat) (t : Node) :
  worker dim fuel m r pts default_fn depth = Some t ->
  0 <= r ->
  (forall p d, In p pts -> (d < dim)%nat ->
               coord m d - r <= coord p d /\ coord p d <= coord m d + r) ->
  incl (points_of t) pts /\
  forall x p, In x (subnodes t) -> In p (points_of x) -> in_region dim x p.
Proof.
  revert fuel m r pts depth t.
  assert (Hslot : forall m r pts n,
             0 <= r ->
             (forall p d, In p pts -> (d < dim)%nat ->
                          coord m d - r <= coord p d /\ coord p d <= coord m d + r) ->
             forall p d, In p (node_pts dim m pts n) -> (d < dim)%nat ->
                         coord (new_mid dim m (r / 2) n) d - r / 2 <= coord p d /\
                         coord p d <= coord (new_mid dim m (r / 2) n) d + r / 2).
  { intros m r pts n Hr Hin p d Hp Hd.
    apply node_pts_In in Hp. destruct Hp as [Hp <-].
    specialize (Hin p d Hp Hd).
    rewrite coord_new_mid, orthant_testbit by exact Hd.
    destruct (Qltb (coord m d) (coord p d)) eqn:E.
    - apply Qltb_lt in E. qhalf. lra.
    - apply Qltb_ge in E. qhalf. lra. }
  apply (worker_ind dim default_fn
           (fun m r pts depth t =>
              0 <= r ->
              (forall p d, In p pts -> (d < dim)%nat ->
                           coord m d - r <= coord p d /\ coord p d <= coord m d + r) ->
              incl (points_of t) pts /\
              forall x p, In x (subnodes t) -> In p (points_of x) -> in_region dim x p)).
  - intros m r p0 depth Hr Hin. split; [apply incl_refl|].
    intros x p [<-|[]] [<-|[]] d Hd. simpl.
    rewrite coord_map_seq by exact Hd. apply Hin; [now left|exact Hd].
  - intros m r pts depth _ Hfn. discriminate.
  - intros m r pts depth cs _ _ Hrel _ _ Hr Hin.
    assert (Hr2 : 0 <= r / 2) by (qhalf; lra).
    assert (Hincl : incl (points_of (mkNode (Some cs) (map (coord m) (seq 0 dim)) r None))
                         pts).
    { intros p Hp. rewrite points_of_internal in Hp. apply in_flat_map in Hp.
      destruct Hp as ([c|] & Hc & Hp); [|contradiction].
      destruct (Forall2_In_r _ _ _ _ Hrel Hc) as (n & _ & _ & HP).
      destruct (HP Hr2 (Hslot m r pts n Hr Hin)) as [Hi _].
      apply Hi in Hp. apply node_pts_In in Hp. tauto. }
    split; [exact Hincl|].
    intros x p Hx Hp.
    apply In_subnodes_internal in Hx. destruct Hx as [->|(c & Hc & Hx)].
    + intros d Hd. simpl. rewrite coord_map_seq by exact Hd.
      apply Hin; [now apply Hincl|exact Hd].
    + destruct (Forall2_In_r _ _ _ _ Hrel Hc) as (n & _ & _ & HP).
      destruct (HP Hr2 (Hslot m r pts n Hr Hin)) as [_ Hs]. now apply Hs.
  - intros m r pts depth n c _ _ _ _ _ Hall HP Hr Hin.
    apply HP; [qhalf; lra|].
    intros p d Hp Hd. apply (Hslot m r pts n Hr Hin); [|exact Hd].
    rewrite Hall. exact Hp.
  - intros m r depth _ Hr Hin. rewrite points_of_empty_node.
    split; [apply incl_refl|].
    intros x p Hx Hp.
    apply In_subnodes_internal in Hx. destruct Hx as [->|(c & Hc & Hx)].
    + rewrite points_of_empty_node in Hp. contradiction.
    + apply repeat_spec in Hc. discriminate.
Qed.

End SoundTree.

(** ** Sorted lists of entries *)

Lemma StronglySorted_app_iff {A} (R : A -> A -> Prop) (l l' : list A) :
  StronglySorted R (l ++ l') <->
  StronglySorted R l /\ StronglySorted R l' /\
  (forall x y, In x l -> In y l' -> R x y).
Proof.
  induction l as [|a l IH]; simpl.
  - split; [intro H; repeat split; [constructor|exact H|intros x y []]|tauto].
  - split.
    + intro H. inversion H as [|? ? Hs Ha]; subst.
      apply IH in Hs. destruct Hs as (Hl & Hl' & Hc).
      rewrite Forall_app in Ha. destruct Ha as [Ha1 Ha2].
      split; [now constructor|]. split; [exact Hl'|].
      intros x y [<-|Hx] Hy; [|now apply Hc].
      rewrite Forall_forall in Ha2. now apply Ha2.
    + intros (Hl & Hl' & Hc). inversion Hl as [|? ? Hs Ha]; subst.
      constructor.
      * apply IH. repeat split; auto.
      * apply Forall_app. split; [exact Ha|].
        apply Forall_forall. intros y Hy. apply Hc; auto.
Qed.

Lemma Forall2_same_distance_refl (l : list (Point * Q)) : Forall2 same_distance l l.
Proof. induction l; constructor; auto. unfold same_distance. reflexivity. Qed.

Lemma Forall2_same_distance_trans (l1 l2 l3 : list (Point * Q)) :
  Forall2 same_distance l1 l2 -> Forall2 same_distance l2 l3 ->
  Forall2 same_distance l1 l3.
Proof.
  intro H. revert l3. induction H as [|a b l1 l2 Hab _ IH]; intros l3 H23.
  - inversion H23. constructor.
  - inversion H23 as [|? c ? l3' Hbc H']; subst. constructor; [|now apply IH].
    unfold same_distance in *. now rewrite Hab.
Qed.

(** Two sorted arrangements of the same entries show the same distances,
    position by position. *)
Lemma sorted_perm_same_distance (l1 : list (Point * Q)) :
  forall l2,
    StronglySorted le_snd l1 -> StronglySorted le_snd l2 -> Permutation l1 l2 ->
    Forall2 same_distance l1 l2.
Proof.
  induction l1 as [|a l1 IH]; intros l2 H1 H2 Hp.
  - apply Permutation_nil in Hp. subst. constructor.
  - destruct l2 as [|b l2]; [apply Permutation_sym, Permutation_nil in Hp; discriminate|].
    inversion H1 as [|? ? Hs1 Ha]; subst. inversion H2 as [|? ? Hs2 Hb]; subst.
    rewrite Forall_forall in Ha, Hb.
    assert (Hina : In a (b :: l2)) by (apply (Permutation_in _ Hp); now left).
    assert (Hinb : In b (a :: l1))
      by (apply (Permutation_in _ (Permutation_sym Hp)); now left).
    assert (Hab : same_distance a b).
    { unfold same_distance, le_snd in *. apply Qle_antisym.
      - destruct Hinb as [<-|Hinb]; [apply Qle_refl|now apply Ha].
      - destruct Hina as [<-|Hina]; [apply Qle_refl|now apply Hb]. }
    constructor; [exact Hab|].
    destruct Hina as [<-|Hina].
    + apply IH; auto. eapply Permutation_cons_inv. exact Hp.
    + destruct (in_split _ _ Hina) as (u & w & ->).
      apply Forall2_same_distance_trans with (u ++ b :: w).
      * apply IH; auto.
        -- apply StronglySorted_app_iff in Hs2. destruct Hs2 as (Hu & Haw & Hc).
           inversion Haw as [|? ? Hw Haw']; subst. rewrite Forall_forall in Haw'.
           apply StronglySorted_app_iff. split; [exact Hu|]. split.
           ++ constructor; [exact Hw|]. apply Forall_forall. intros y Hy.
              unfold le_snd, same_distance in *. rewrite <- Hab. now apply Haw'.
           ++ intros x y Hx [<-|Hy].
              ** unfold le_snd, same_distance in *. rewrite <- Hab.
                 apply Hc; [exact Hx|now left].
              ** apply Hc; [exact Hx|now right].
        -- apply Permutation_cons_inv with a.
           rewrite Hp. rewrite <- !Permutation_middle. apply perm_swap.
      * apply Forall2_app; [apply Forall2_same_distance_refl|].
        constructor; [|apply Forall2_same_distance_refl].
        unfold same_distance in *. now rewrite Hab.
Qed.

Lemma scan_insert_perm (x : Point * Q) (l : list (Point * Q)) :
  Permutation (scan_insert x l) (x :: l).
Proof.
  induction l as [|y l IH]; simpl; [reflexivity|].
  destruct (Qle_bool (snd y) (snd x)); [|reflexivity].
  rewrite IH. apply perm_swap.
Qed.

Lemma scan_insert_sorted (x : Point * Q) (l : list (Point * Q)) :
  StronglySorted le_snd l -> StronglySorted le_snd (scan_insert x l).
Proof.
  induction l as [|y l IH]; simpl; intro Hs.
  - constructor; constructor.
  - inversion Hs as [|? ? Hl Hy]; subst.
    destruct (Qle_bool (snd y) (snd x)) eqn:E.
    + apply Qle_bool_iff in E. constructor; [now apply IH|].
      apply (Permutation_Forall (Permutation_sym (scan_insert_perm x l))).
      constructor; [exact E|exact Hy].
    + assert (Hlt : snd x <= snd y).
      { apply Qlt_le_weak, Qnot_le_lt. intro H. apply Qle_bool_iff in H. congruence. }
      constructor; [exact Hs|]. constructor; [exact Hlt|].
      eapply Forall_impl; [|exact Hy]. intros z Hz. unfold le_snd in *. lra.
Qed.

Lemma scan_fold (dim : nat) (q : Point) (pts : list Point) (acc : list (Point * Q)) :
  StronglySorted le_snd acc ->
  StronglySorted le_snd
    (fold_left (fun acc p => scan_insert (p, sqdist dim p q) acc) pts acc) /\
  Permutation (fold_left (fun acc p => scan_insert (p, sqdist dim p q) acc) pts acc)
              (map (fun p => (p, sqdist dim p q)) pts ++ acc).
Proof.
  revert acc. induction pts as [|p pts IH]; intros acc Hs; simpl.
  - split; [exact Hs|reflexivity].
  - destruct (IH _ (scan_insert_sorted (p, sqdist dim p q) acc Hs)) as [H1 H2].
    split; [exact H1|]. rewrite H2, scan_insert_perm.
    apply Permutation_sym, Permutation_middle.
Qed.

Lemma scan_sorted (dim : nat) (q : Point) (pts : list Point) :
  StronglySorted le_snd (scan dim q pts).
Proof. apply scan_fold. constructor. Qed.

Lemma scan_perm (dim : nat) (q : Point) (pts : list Point) :
  Permutation (scan dim q pts) (map (fun p => (p, sqdist dim p q)) pts).
Proof.
  unfold scan. rewrite (proj2 (scan_fold dim q pts [] (SSorted_nil _))).
  now rewrite app_nil_r.
Qed.

Lemma Forall2_firstn {A B} (R : A -> B -> Prop) (n : nat) (l : list A) (r : list B) :
  Forall2 R l r -> Forall2 R (firstn n l) (firstn n r).
Proof.
  intro H. revert n. induction H; intros [|n]; simpl; constructor; auto.
Qed.

(** A sorted list of entries that leaves out only points at least as far as
    its own shows the distances of the head of the scan. *)
Lemma nearest_same_distance (dim : nat) (q : Point) (pts : list Point)
      (qr : list (Point * Q)) (dropped : list Point) :
  StronglySorted le_snd qr ->
  (forall x, In x qr -> snd x = sqdist dim (fst x) q) ->
  Permutation (map fst qr ++ dropped) pts ->
  (forall r x, In r dropped -> In x qr -> snd x <= sqdist dim r q) ->
  Forall2 same_distance qr (brute_force dim (length qr) q pts).
Proof.
  intros Hs Hd Hp Hfar.
  assert (Hqr : map (fun p => (p, sqdist dim p q)) (map fst qr) = qr).
  { clear -Hd. induction qr as [|[p d] qr IH]; simpl; [reflexivity|].
    rewrite IH by (intros; apply Hd; now right).
    pose proof (Hd (p, d) (or_introl eq_refl)) as E. simpl in E.
    rewrite <- E. reflexivity. }
  assert (HL : Forall2 same_distance (qr ++ scan dim q dropped) (scan dim q pts)).
  { apply sorted_perm_same_distance.
    - apply StronglySorted_app_iff. split; [exact Hs|]. split; [apply scan_sorted|].
      intros x y Hx Hy.
      apply (Permutation_in _ (scan_perm dim q dropped)), in_map_iff in Hy.
      destruct Hy as (r & <- & Hr). unfold le_snd. simpl. now apply Hfar.
    - apply scan_sorted.
    - rewrite !scan_perm, <- Hp, map_app, Hqr. reflexivity. }
  apply (Forall2_firstn _ (length qr)) in HL.
  rewrite firstn_app, firstn_all, Nat.sub_diag in HL. simpl in HL.
  rewrite app_nil_r in HL. exact HL.
Qed.

(** ** The invariant of the exact search *)

Lemma back_second_rev (qr : list (Point * Q)) (y : Point * Q) :
  back_second (qr ++ [y]) = Some (snd y).
Proof. unfold back_second. rewrite rev_app_distr. reflexivity. Qed.

Lemma kth_dist_cases (k : nat) (qr : list (Point * Q)) (kth : Q) :
  StronglySorted le_snd qr -> (length qr <= k)%nat -> (1 <= k)%nat ->
  kth_dist k qr = Some kth ->
  ((length qr < k)%nat /\ kth = DBL_MAX) \/
  (length qr = k /\ (exists y, In y qr /\ kth = snd y) /\
   forall x, In x qr -> snd x <= kth).
Proof.
  intros Hs Hle Hk. unfold kth_dist.
  destruct (Nat.ltb_spec (length qr) k) as [Hlt|Hge].
  - intro H. injection H as <-. now left.
  - intro H. right. split; [lia|].
    destruct (exists_last (l := qr)) as (l & y & ->).
    { intros ->. simpl in Hge. lia. }
    rewrite back_second_rev in H. injection H as <-.
    split; [exists y; split; [apply in_or_app; right; now left|reflexivity]|].
    apply StronglySorted_app_iff in Hs. destruct Hs as (_ & _ & Hc).
    intros x Hx. apply in_app_or in Hx. destruct Hx as [Hx|[<-|[]]].
    + apply (Hc x y Hx). now left.
    + apply Qle_refl.
Qed.

Lemma add_result_cases (k : nat) (x0 : Point * Q) (qr : list (Point * Q)) :
  StronglySorted le_snd qr -> (length qr <= k)%nat ->
  ((length qr < k)%nat /\ add_result k x0 qr = insert_result x0 qr) \/
  (length qr = k /\
   exists z, insert_result x0 qr = add_result k x0 qr ++ [z] /\
             forall x, In x (add_result k x0 qr) -> snd x <= snd z).
Proof.
  intros Hs Hle. unfold add_result. rewrite insert_result_length.
  destruct (Nat.ltb_spec k (S (length qr))) as [Hlt|Hge]; [right|left; split; [lia|reflexivity]].
  split; [lia|].
  pose proof (insert_result_sorted x0 qr Hs) as Hi.
  destruct (exists_last (l := insert_result x0 qr)) as (l & z & E).
  { intro E. apply (f_equal (@length _)) in E. rewrite insert_result_length in E.
    discriminate. }
  rewrite E in *. rewrite removelast_last. exists z. split; [reflexivity|].
  apply StronglySorted_app_iff in Hi. destruct Hi as (_ & _ & Hc).
  intros x Hx. apply (Hc x z Hx). now left.
Qed.

Lemma queue_pts_perm (a b : list NodeDistance) :
  Permutation a b -> Permutation (queue_pts a) (queue_pts b).
Proof. apply Permutation_flat_map. Qed.

Lemma queue_pts_app (a b : list NodeDistance) :
  queue_pts (a ++ b) = queue_pts a ++ queue_pts b.
Proof. apply flat_map_app. Qed.

(** The points below the children are those below the pushed children and
    those pruned. *)
Lemma children_split (dim : nat) (uninit : Point -> Node -> nat -> Q) (p : Point)
      (kth : Q) (cs : list (option Node)) :
  Permutation
    (flat_map (fun c => match c with Some c => points_of c | None => [] end) cs)
    (queue_pts (pushed dim uninit p kth cs) ++ pruned dim uninit p kth cs).
Proof.
  unfold queue_pts, pushed, pruned.
  induction cs as [|[c|] cs IH]; simpl; auto.
  rewrite flat_map_app.
  destruct (Qltb (min_pt_dist_to_node dim uninit p c) kth); simpl.
  - rewrite app_nil_r, IH. aac_reflexivity.
  - rewrite IH. aac_reflexivity.
Qed.

Lemma In_pruned (dim : nat) (uninit : Point -> Node -> nat -> Q) (p : Point)
      (kth : Q) (cs : list (option Node)) (r : Point) :
  In r (pruned dim uninit p kth cs) ->
  exists c, In (Some c) cs /\ In r (points_of c) /\
            kth <= min_pt_dist_to_node dim uninit p c.
Proof.
  unfold pruned. rewrite in_flat_map. intros ([c|] & Hc & H); [|contradiction].
  destruct (Qltb (min_pt_dist_to_node dim uninit p c) kth) eqn:E; [contradiction|].
  apply Qltb_ge in E. eauto.
Qed.

Lemma nearest_among_perm (dim : nat) (q : Point) (k : nat) (qr : list (Point * Q))
      (a b : list Point) :
  Permutation a b -> nearest_among dim q k qr a -> nearest_among dim q k qr b.
Proof.
  intros Hp (dropped & H1 & H2 & H3). exists dropped.
  split; [now rewrite H1|]. auto.
Qed.

(** Visiting a leaf keeps the result nearest among the points seen. *)
Lemma nearest_among_add (dim : nat) (q : Point) (k : nat) (qr : list (Point * Q))
      (seen : list Point) (np : Point) :
  StronglySorted le_snd qr -> (length qr <= k)%nat ->
  (forall x, In x qr -> snd x = sqdist dim (fst x) q) ->
  nearest_among dim q k qr seen ->
  nearest_among dim q k (add_result k (np, sqdist dim np q) qr) (np :: seen).
Proof.
  intros Hs Hle Hd (dropped & H1 & H2 & H3).
  pose proof (Permutation_map fst (insert_result_perm (np, sqdist dim np q) qr)) as Hins.
  simpl in Hins.
  destruct (add_result_cases k (np, sqdist dim np q) qr Hs Hle)
    as [[Hlt ->]|(Hk & z & Ez & Hz)].
  - assert (dropped = []) as ->.
    { destruct dropped; [reflexivity|]. assert (length qr = k) by (apply H2; discriminate).
      lia. }
    exists []. split; [|split].
    + rewrite Hins, <- H1. reflexivity.
    + intro H. now contradiction H.
    + intros r x [].
  - pose proof (add_result_length k (np, sqdist dim np q) qr Hle) as Hlen.
    set (qr' := add_result k (np, sqdist dim np q) qr) in *.
    assert (Hinz : In z ((np, sqdist dim np q) :: qr)).
    { apply (Permutation_in _ (insert_result_perm _ qr)). rewrite Ez.
      apply in_or_app. right. now left. }
    assert (Hdz : snd z = sqdist dim (fst z) q).
    { destruct Hinz as [<-|Hinz]; [reflexivity|now apply Hd]. }
    exists (fst z :: dropped). split; [|split].
    + rewrite Ez, map_app in Hins. simpl in Hins.
      change (fst z :: dropped) with ([fst z] ++ dropped).
      change (np :: seen) with ([np] ++ seen).
      change (np :: map fst qr) with ([np] ++ map fst qr) in Hins.
      rewrite <- H1. rewrite app_assoc, Hins. aac_reflexivity.
    + intros _. lia.
    + intros r x [<-|Hr] Hx.
      * rewrite <- Hdz. now apply Hz.
      * destruct Hinz as [<-|Hinz].
        -- assert (Hp : Permutation qr qr').
           { pose proof (insert_result_perm (np, sqdist dim np q) qr) as Hp.
             rewrite Ez in Hp. apply Permutation_sym in Hp.
             apply Permutation_cons_app_inv in Hp. now rewrite app_nil_r in Hp. }
           apply (H3 r x Hr). apply (Permutation_in _ (Permutation_sym Hp) Hx).
        -- apply Qle_trans with (snd z); [now apply Hz|now apply H3].
Qed.

(** Leaving out points that are at least as far as every entry of a full
    result keeps it nearest. *)
Lemma nearest_among_prune (dim : nat) (q : Point) (k : nat) (qr : list (Point * Q))
      (seen extra : list Point) :
  (forall r, In r extra ->
             length qr = k /\ forall x, In x qr -> snd x <= sqdist dim r q) ->
  nearest_among dim q k qr seen ->
  nearest_among dim q k qr (seen ++ extra).
Proof.
  intros He (dropped & H1 & H2 & H3). exists (dropped ++ extra). split; [|split].
  - rewrite <- H1. aac_reflexivity.
  - intro Hne. destruct dropped as [|d dropped]; [|apply H2; discriminate].
    destruct extra as [|e extra]; [now contradiction Hne|].
    apply (He e). now left.
  - intros r x Hr Hx. apply in_app_or in Hr. destruct Hr as [Hr|Hr].
    + now apply H3.
    + now apply (He r Hr).
Qed.

Lemma add_result_In (k : nat) (x0 x : Point * Q) (qr : list (Point * Q)) :
  In x (add_result k x0 qr) -> x = x0 \/ In x qr.
Proof.
  intro H.
  assert (Hi : In x (insert_result x0 qr)).
  { unfold add_result in H.
    destruct (Nat.ltb k (length (insert_result x0 qr))); [|exact H].
    destruct (exists_last (l := insert_result x0 qr)) as (l & z & E).
    { intro E. rewrite E in H. contradiction. }
    rewrite E in *. rewrite removelast_last in H. apply in_or_app. now left. }
  apply (Permutation_in _ (insert_result_perm x0 qr)) in Hi.
  destruct Hi as [<-|Hi]; auto.
Qed.

Lemma DBL_MAX_pos : 0 < DBL_MAX.
Proof. vm_compute. reflexivity. Qed.

Section ExactLoop.

Variable dim : nat.
Context {heap : HeapAlgorithms}.
Variable uninit : Point -> Node -> nat -> Q.
Hypothesis heap_ok : heap_contract heap.
Variables (k : nat) (q : Point) (root : Node).

Hypothesis uninit_nonneg : forall nd d, 0 <= uninit q nd d.
Hypothesis root_sound :
  forall x p, In x (subnodes root) -> In p (points_of x) -> in_region dim x p.
Hypothesis root_points :
  forall x, In x (subnodes root) -> nodes x = None -> pt x <> None.
Hypothesis root_finite : forall p, In p (points_of root) -> sqdist dim p q < DBL_MAX.
Hypothesis k_pos : (1 <= k)%nat.

Lemma child_bound (x c : Node) (cs : list (option Node)) (p : Point) :
  incl (subnodes x) (subnodes root) -> nodes x = Some cs -> In (Some c) cs ->
  In p (points_of c) ->
  min_pt_dist_to_node dim uninit q c <= sqdist dim p q.
Proof.
  intros Hx En Hc Hp. apply min_pt_dist_sound; [apply uninit_nonneg|].
  apply root_sound; [|exact Hp].
  apply Hx, (subnodes_child _ _ _ En Hc), In_subnodes_self.
Qed.

Lemma exact_step (qr : list (Point * Q)) (x : NodeDistance) (v : list NodeDistance) :
  exact_inv dim q k root qr (x :: v) ->
  match knn_step dim uninit k q 0 qr x v with
  | Continue qr' pq' => exact_inv dim q k root qr' pq'
  | Stop qr' => exact_post dim q k root qr'
  | Crash _ => False
  end.
Proof.
  intros (Hh & Hs & Hle & Hd & Hq & seen & Hperm & Hnear).
  pose proof (knn_step_cases dim uninit heap_ok k q 0 qr x v Hh) as Hc.
  destruct (Hq x (or_introl eq_refl)) as (Hxin & Hxmax & Hxlow).
  assert (Hxroot : In (node x) (subnodes root)) by apply Hxin, In_subnodes_self.
  assert (Hroot : forall nd p, In nd (x :: v) -> In p (points_of (node nd)) ->
                               In p (points_of root)).
  { intros nd p Hnd Hp. apply (Permutation_in _ Hperm), in_or_app. right.
    unfold queue_pts. apply in_flat_map. eauto. }
  destruct (knn_step dim uninit k q 0 qr x v) as [qr' pq'|qr'|f].
  - destruct Hc as [Hh' [(np & En & Ep & -> & Hp)|(cs & kth & En & Ek & Hnle & -> & Hp)]].
    + (* leaf *)
      split; [exact Hh'|]. split; [now apply add_result_sorted|].
      split; [rewrite add_result_length by exact Hle; lia|].
      split.
      { intros y Hy. apply add_result_In in Hy. destruct Hy as [->|Hy]; auto. }
      split.
      { intros nd Hnd. apply Hq. right. apply (Permutation_in _ Hp Hnd). }
      exists (np :: seen). split; [|now apply nearest_among_add].
      rewrite (queue_pts_perm _ _ Hp), <- Hperm.
      unfold queue_pts at 2. simpl. rewrite (points_of_leaf _ _ En Ep).
      fold (queue_pts v). apply Permutation_middle.
    + (* internal node, children pushed *)
      pose proof (kth_dist_cases k qr kth Hs Hle k_pos Ek) as Hkth.
      assert (Hkmax : kth <= DBL_MAX).
      { destruct Hkth as [[_ ->]|(_ & (y & Hy & ->) & _)]; [apply Qle_refl|].
        rewrite (Hd y Hy). apply Qlt_le_weak, root_finite.
        destruct Hnear as (dropped & H1 & _).
        apply (Permutation_in _ Hperm), in_or_app. left.
        apply (Permutation_in _ H1), in_or_app. left. now apply in_map. }
      split; [exact Hh'|]. split; [exact Hs|]. split; [exact Hle|]. split; [exact Hd|].
      split.
      { intros nd Hnd. apply (Permutation_in _ Hp), in_app_or in Hnd.
        destruct Hnd as [Hnd|Hnd]; [apply Hq; now right|].
        apply In_pushed in Hnd. destruct Hnd as (Hcin & Hdist & Hlt).
        split; [|split].
        - intros y Hy. apply Hxin, (subnodes_child _ _ _ En Hcin y Hy).
        - lra.
        - intros p Hp'. rewrite Hdist. now apply (child_bound (node x) _ cs). }
      exists (seen ++ pruned dim uninit q kth cs). split.
      * rewrite (queue_pts_perm _ _ Hp), queue_pts_app, <- Hperm.
        unfold queue_pts at 3. simpl. fold (queue_pts v).
        rewrite (points_of_node _ _ En), (children_split dim uninit q kth cs).
        aac_reflexivity.
      * apply nearest_among_prune; [|exact Hnear].
        intros r Hr. apply In_pruned in Hr. destruct Hr as (c & Hcin & Hrc & Hge).
        pose proof (child_bound (node x) c cs r Hxin En Hcin Hrc) as Hlow.
        assert (Hfin : sqdist dim r q < DBL_MAX).
        { apply root_finite, (Hroot x r (or_introl eq_refl)).
          rewrite (points_of_node _ _ En). apply in_flat_map. exists (Some c). auto. }
        destruct Hkth as [[_ ->]|(Hk & _ & Hall)]; [lra|].
        split; [exact Hk|]. intros y Hy. specialize (Hall y Hy). lra.
  - (* break *)
    destruct Hc as (-> & cs & kth & En & Ek & Hstop).
    pose proof (kth_dist_cases k qr kth Hs Hle k_pos Ek) as Hkth.
    destruct Hkth as [[_ ->]|(Hk & _ & Hall)]; [lra|].
    split; [exact Hs|]. split; [exact Hle|]. split; [exact Hd|].
    apply (nearest_among_perm dim q k qr _ _ Hperm).
    apply nearest_among_prune; [|exact Hnear].
    intros r Hr. split; [exact Hk|]. intros y Hy. specialize (Hall y Hy).
    unfold queue_pts in Hr. apply in_flat_map in Hr. destruct Hr as (nd & Hnd & Hr).
    destruct (Hq nd Hnd) as (_ & _ & Hlow). specialize (Hlow r Hr).
    assert (Hmin : distance x <= distance nd).
    { destruct Hnd as [<-|Hnd]; [apply Qle_refl|now apply (heap_root_min x v Hh)]. }
    lra.
  - destruct f.
    + destruct Hc as [En Ep]. now apply (root_points (node x)).
    + destruct Hc as [_ Hn]. destruct (kth_dist_defined k qr k_pos) as [kth Hkth].
      congruence.
Qed.

Lemma exact_loop (fuel : nat) :
  match knn_loop dim uninit fuel k q 0 [] [mkND root 0] with
  | Ok (qr, _) => exact_post dim q k root qr
  | Undefined _ => False
  | OutOfFuel => True
  end.
Proof.
  apply (knn_loop_invariant dim uninit k q 0 (exact_inv dim q k root)
           (fun out => match out with
                       | Ok (qr, _) => exact_post dim q k root qr
                       | Undefined _ => False
                       | OutOfFuel => True
                       end)); auto.
  - intros qr (_ & Hs & Hle & Hd & _ & seen & Hperm & Hnear).
    split; [exact Hs|]. split; [exact Hle|]. split; [exact Hd|].
    apply (nearest_among_perm dim q k qr seen); [|exact Hnear].
    rewrite <- Hperm. unfold queue_pts. simpl. now rewrite app_nil_r.
  - intros qr x v Hinv. pose proof (exact_step qr x v Hinv) as H.
    destruct (knn_step dim uninit k q 0 qr x v); auto.
  - split; [apply is_heap_one|]. split; [constructor|]. split; [simpl; lia|].
    split; [intros x []|]. split.
    + intros nd [<-|[]]. simpl. split; [apply incl_refl|].
      split; [apply DBL_MAX_pos|]. intros p _. apply sqdist_nonneg.
    + exists []. split.
      * unfold queue_pts. simpl. now rewrite app_nil_r.
      * exists []. split; [reflexivity|]. split; [intro H; now contradiction H|].
        intros r x [].
Qed.

End ExactLoop.

(** ** The claim and the brute-force scan *)

(** The run of the search on the two tied points, for every implementation
    of the heap algorithms and every content of the unassigned [dist]: the
    leaf of 1 (bound 0) is visited before the leaf of 5 (bound 1), and the
    later insertion, at the same distance 4, goes in front. *)
Lemma knn_loop_S (dim : nat) (heap : HeapAlgorithms) (uninit : Point -> Node -> nat -> Q)
      (fuel k : nat) (p : Point) (eps : Q) (qr : list (Point * Q))
      (x : NodeDistance) (v : list NodeDistance) :
  knn_loop dim uninit (S fuel) k p eps qr (x :: v) =
  match knn_step dim uninit k p eps qr x v with
  | Continue qr pq => knn_loop dim uninit fuel k p eps qr pq
  | Stop qr => Ok (qr, Break)
  | Crash f => Undefined f
  end.
Proof. reflexivity. Qed.

Lemma knn_tie_run (heap : HeapAlgorithms) (uninit : Point -> Node -> nat -> Q) :
  heap_contract heap ->
  knn 1 uninit 3 tie_root 1 [3] 0 = Ok [([5], 4)].
Proof.
  intro heap_ok.
  pose (A := mkND (slot tie_root 0) 0).
  pose (B := mkND (slot tie_root 1) (1024 # 1024)).
  (* the root: both leaves are pushed *)
  assert (S1 : exists pq1, knn_step 1 uninit 1 [3] 0 [] (mkND tie_root 0) []
                           = Continue [] pq1 /\ is_heap pq1 /\ Permutation pq1 [A; B]).
  { destruct (knn_step_spec 1 uninit heap_ok 1 [3] 0 [] (mkND tie_root 0) [] (is_heap_one _))
      as (v0 & _ & Hp0 & ->).
    apply Permutation_sym, Permutation_nil in Hp0. subst v0.
    exists (push_children 1 uninit [3] DBL_MAX (children tie_root) []).
    split; [reflexivity|].
    destruct (push_children_spec 1 uninit heap_ok [3] DBL_MAX (children tie_root) [] is_heap_nil)
      as [Hh1 Hp1].
    split; [exact Hh1|]. rewrite Hp1. vm_compute. reflexivity. }
  destruct S1 as (pq1 & S1 & Hh1 & Hp1).
  apply Permutation_sym, Permutation_length_2_inv in Hp1.
  assert (E : pq1 = [A; B]).
  { destruct Hp1 as [E|E]; [exact E|exfalso]. rewrite E in Hh1.
    specialize (Hh1 1%nat B A Nat.lt_0_1 eq_refl eq_refl).
    vm_compute in Hh1. discriminate. }
  subst pq1.
  (* the leaf of 1 *)
  assert (S2 : knn_step 1 uninit 1 [3] 0 [] A [B] = Continue [([1], 4)] [B]).
  { destruct (knn_step_spec 1 uninit heap_ok 1 [3] 0 [] A [B] Hh1) as (v1 & Hh2 & Hp2 & ->).
    apply Permutation_sym, Permutation_length_1_inv in Hp2. subst v1.
    vm_compute. reflexivity. }
  (* the leaf of 5 *)
  assert (S3 : knn_step 1 uninit 1 [3] 0 [([1], 4)] B [] = Continue [([5], 4)] []).
  { destruct (knn_step_spec 1 uninit heap_ok 1 [3] 0 [([1], 4)] B [] (is_heap_one _))
      as (v2 & _ & Hp3 & ->).
    apply Permutation_sym, Permutation_nil in Hp3. subst v2.
    vm_compute. reflexivity. }
  unfold knn. rewrite knn_loop_S, S1, knn_loop_S, S2, knn_loop_S, S3. reflexivity.
Qed.


Lemma In_firstn {A} (n : nat) (l : list A) (x : A) : In x (firstn n l) -> In x l.
Proof.
  revert l. induction n as [|n IH]; intros [|a l]; simpl; try contradiction.
  intros [<-|H]; auto.
Qed.



Lemma knn_terminates_witness :
  exists out,
    (forall fuel, (node_count ex_root <= fuel)%nat ->
                  @knn_loop 2 sort_heap zero_uninit fuel 3 [0;0] 0 [] [mkND ex_root 0] = out) /\
    out <> OutOfFuel /\
    ((1 <= 3)%nat ->
     (forall x, In x (subnodes ex_root) -> nodes x = None -> pt x <> None) ->
     exists qr e, out = Ok (qr, e) /\ (e = QueueEmpty \/ e = Break)).
Proof.
  apply (knn_terminates 2 sort_heap zero_uninit ex_root 3 [0;0] 0).
  exact sort_heap_contract.
Defined.

(** * Further properties of the construction *)

Lemma filter_perm {A} (f : A -> bool) (l l' : list A) :
  Permutation l l' -> Permutation (filter f l) (filter f l').
Proof.
  induction 1 as [|x l l' _ IH|x y l|l l' l'' _ IH1 _ IH2]; simpl.
  - constructor.
  - destruct (f x); [now constructor|exact IH].
  - destruct (f x), (f y); try reflexivity. apply perm_swap.
  - now rewrite IH1.
Qed.

(** X1. The leaves of a tree built with the default stop predicate store
    the input points, each as often as it was given. *)
Theorem built_points (dim fuel : nat) (pts : list Point) (range : nat -> Q)
        (root : Node) :
  CompressedQuadtree dim fuel pts range default_fn = Some root ->
  Permutation (points_of root) pts.
Proof. apply worker_points. Qed.

Lemma built_points_witness : Permutation (points_of ex_root) ex_pts.
Proof.
  apply (built_points 2 10 ex_pts ex_range ex_root). vm_compute. reflexivity.
Defined.

Lemma flat_map_Forall2_rest {A B C} (f : A -> list C) (g : B -> list C)
      (l : list A) (r : list B) :
  Forall2 (fun a b => exists rest, Permutation (g b ++ rest) (f a)) l r ->
  exists rest, Permutation (flat_map g r ++ rest) (flat_map f l).
Proof.
  induction 1 as [|a b l r (rest & Hab) _ (rest' & IH)]; simpl.
  - exists []. constructor.
  - exists (rest ++ rest'). rewrite <- Hab, <- IH. aac_reflexivity.
Qed.

(** X2. Whatever the stop predicate, the points stored in a built tree are
    input points, none more often than it was given: subtrees that the
    predicate stopped store nothing. *)
Theorem built_points_any_fn (dim : nat) (fn : EndBuildFn) (fuel : nat)
        (pts : list Point) (range : nat -> Q) (root : Node) :
  CompressedQuadtree dim fuel pts range fn = Some root ->
  exists rest, Permutation (points_of root ++ rest) pts.
Proof.
  unfold CompressedQuadtree. generalize (root_mid dim range), (root_radius dim range), 0%nat.
  intros m r depth. revert fuel m r pts depth root.
  apply (worker_ind dim fn
           (fun m r pts depth t => exists rest, Permutation (points_of t ++ rest) pts)).
  - intros. exists []. reflexivity.
  - intros m r pts depth _ _. exists pts. reflexivity.
  - intros m r pts depth cs _ _ Hrel _ _.
    rewrite points_of_internal.
    destruct (flat_map_Forall2_rest (node_pts dim m pts)
                (fun c => match c with Some c => points_of c | None => [] end)
                (seq 0 (nnodes dim)) cs) as (rest & Hrest).
    { eapply Forall2_impl; [|exact Hrel].
      intros n [c|] Hc; simpl in Hc.
      - apply Hc.
      - exists []. rewrite Hc. constructor. }
    exists rest. rewrite Hrest. apply buckets_perm.
  - intros. assumption.
  - intros. exists []. rewrite points_of_empty_node. constructor.
Qed.

Lemma built_points_any_fn_witness :
  exists rest, Permutation (points_of ex_root ++ rest) ex_pts.
Proof.
  apply (built_points_any_fn 2 default_fn 10 ex_pts ex_range ex_root).
  vm_compute. reflexivity.
Defined.

(** X3. Whatever the stop predicate, every children array of a built tree
    has exactly [nnodes] slots. *)
Theorem built_children_length (dim : nat) (fn : EndBuildFn) (fuel : nat)
        (pts : list Point) (range : nat -> Q) (root : Node) :
  CompressedQuadtree dim fuel pts range fn = Some root ->
  forall x cs, In x (subnodes root) -> nodes x = Some cs -> length cs = nnodes dim.
Proof. apply worker_children_length. Qed.

Lemma built_children_length_witness : length (children ex_root) = nnodes 2.
Proof.
  apply (built_children_length 2 default_fn 10 ex_pts ex_range ex_root)
    with (x := ex_root).
  - vm_compute. reflexivity.
  - apply In_subnodes_self.
  - reflexivity.
Defined.

(** ** The order of the input *)

Lemma worker_perm (dim : nat) (fn : EndBuildFn) (fuel : nat) :
  forall m r pts pts' depth,
    Permutation pts pts' ->
    worker dim fuel m r pts fn depth = worker dim fuel m r pts' fn depth.
Proof.
  induction fuel as [|fuel IH]; intros m r pts pts' depth Hp; [reflexivity|].
  simpl. rewrite <- (Permutation_length Hp).
  destruct (Nat.eqb (length pts) 1) eqn:E1.
  { apply Nat.eqb_eq in E1. destruct pts as [|p [|? ?]]; try discriminate.
    apply Permutation_length_1_inv in Hp. subst pts'. reflexivity. }
  destruct (fn (new_Node dim m r) depth); simpl; [reflexivity|].
  assert (Hb : forall n, Permutation (node_pts dim m pts n) (node_pts dim m pts' n)).
  { intro n. unfold node_pts. now apply filter_perm. }
  assert (Hni : ninteresting dim m pts = ninteresting dim m pts').
  { unfold ninteresting. f_equal. apply filter_ext. intro n.
    now rewrite (Permutation_length (Hb n)). }
  rewrite Hni.
  match goal with
  | |- match collect (map ?f _) with _ => _ end =
       match collect (map ?g _) with _ => _ end =>
      replace (map g (seq 0 (nnodes dim))) with (map f (seq 0 (nnodes dim)));
        [reflexivity|]
  end.
  apply map_ext. intro n.
  rewrite (Permutation_length (Hb n)), (IH _ _ _ _ _ (Hb n)). reflexivity.
Qed.

(** X4. The tree does not depend on the order in which the points are
    given. *)
Theorem built_order_independent (dim : nat) (fn : EndBuildFn) (fuel : nat)
        (pts pts' : list Point) (range : nat -> Q) :
  Permutation pts pts' ->
  CompressedQuadtree dim fuel pts range fn = CompressedQuadtree dim fuel pts' range fn.
Proof. apply worker_perm. Qed.

Lemma built_order_independent_witness :
  CompressedQuadtree 2 10 ex_pts ex_range default_fn
  = CompressedQuadtree 2 10 (rev ex_pts) ex_range default_fn.
Proof.
  apply (built_order_independent 2 default_fn 10 ex_pts (rev ex_pts) ex_range).
  apply Permutation_rev.
Defined.

(** ** Coincident points *)

Lemma Qltb_comp_r (a b b' : Q) : b == b' -> Qltb a b = Qltb a b'.
Proof. intro H. unfold Qltb. now rewrite H. Qed.

Lemma orthant_fold_same (m p p' : Point) (l : list nat) (n : nat) :
  (forall d, In d l -> coord p d == coord p' d) ->
  fold_left (fun n d => if Qltb (coord m d) (coord p d) then (n + 2 ^ d)%nat else n) l n
  = fold_left (fun n d => if Qltb (coord m d) (coord p' d) then (n + 2 ^ d)%nat else n) l n.
Proof.
  revert n. induction l as [|d l IH]; intros n Hin; simpl; [reflexivity|].
  rewrite (Qltb_comp_r _ _ _ (Hin d (or_introl eq_refl))).
  apply IH. intros; apply Hin; now right.
Qed.

Lemma orthant_same (dim : nat) (m p p' : Point) :
  (forall d, (d < dim)%nat -> coord p d == coord p' d) ->
  orthant dim m p = orthant dim m p'.
Proof.
  intro H. apply orthant_fold_same.
  intros d Hd. apply in_seq in Hd. apply H. lia.
Qed.

Lemma collect_None {A B} (f : A -> option B) (l : list A) (a : A) :
  In a l -> f a = None -> collect (map f l) = None.
Proof.
  induction l as [|x l IH]; simpl; [contradiction|].
  intros [->|Hin] Ha.
  - now rewrite Ha.
  - destruct (f x); [|reflexivity]. now rewrite IH.
Qed.

Lemma worker_coincident (dim : nat) (fuel : nat) :
  forall m r depth l1 l2 l3 p p',
    (forall d, (d < dim)%nat -> coord p d == coord p' d) ->
    worker dim fuel m r (l1 ++ p :: l2 ++ p' :: l3) default_fn depth = None.
Proof.
  induction fuel as [|fuel IH]; intros m r depth l1 l2 l3 p p' Heq; [reflexivity|].
  simpl.
  destruct (Nat.eqb_spec (length (l1 ++ p :: l2 ++ p' :: l3)) 1) as [E|_].
  { rewrite length_app in E. simpl in E. rewrite length_app in E. simpl in E. lia. }
  match goal with
  | |- match collect (map ?f ?l) with _ => _ end = None =>
      rewrite (collect_None f l (orthant dim m p)); [reflexivity| |]
  end.
  - apply in_seq. pose proof (orthant_lt dim m p). lia.
  - assert (Hb : node_pts dim m (l1 ++ p :: l2 ++ p' :: l3) (orthant dim m p)
                 = node_pts dim m l1 (orthant dim m p) ++
                   p :: node_pts dim m l2 (orthant dim m p) ++
                   p' :: node_pts dim m l3 (orthant dim m p)).
    { unfold node_pts. rewrite filter_app. simpl. rewrite Nat.eqb_refl.
      rewrite filter_app. simpl.
      rewrite <- (orthant_same dim m p p' Heq), Nat.eqb_refl. reflexivity. }
    rewrite Hb, (IH _ _ _ _ _ _ p p' Heq).
    rewrite length_app. simpl length. rewrite Nat.add_succ_r. reflexivity.
Qed.

(** X5. With the default stop predicate the recursion of [worker] never
    ends when two of the points have the same coordinates: whatever the
    depth allowed, no tree is returned. *)
Theorem built_coincident_points (dim fuel : nat) (range : nat -> Q)
        (l1 l2 l3 : list Point) (p p' : Point) :
  (forall d, (d < dim)%nat -> coord p d == coord p' d) ->
  CompressedQuadtree dim fuel (l1 ++ p :: l2 ++ p' :: l3) range default_fn = None.
Proof. intro H. now apply worker_coincident. Qed.

Lemma built_coincident_points_witness :
  CompressedQuadtree 2 50 ([] ++ [3;4] :: [[0;0]] ++ [3;4] :: []) ex_range default_fn
  = None.
Proof.
  apply (built_coincident_points 2 50 ex_range [] [[0;0]] [] [3;4] [3;4]).
  intros d _. reflexivity.
Defined.

(** ** The size of the tree *)

Lemma children_size (cs : list (option Node)) :
  (forall c, In (Some c) cs -> (node_count c + 1 <= 2 * length (points_of c))%nat) ->
  (length (flat_map (fun c => match c with Some c => subnodes c | None => [] end) cs)
   + length (present cs)
   <= 2 * length (flat_map (fun c => match c with Some c => points_of c | None => [] end)
                           cs))%nat.
Proof.
  induction cs as [|[c|] cs IH]; intro H; simpl.
  - lia.
  - rewrite !length_app.
    specialize (IH (fun c' Hc' => H c' (or_intror Hc'))).
    specialize (H c (or_introl eq_refl)). unfold node_count in H. lia.
  - apply IH. intros c Hc. apply H. now right.
Qed.

Lemma compressed_size (t : Node) :
  (forall x, In x (subnodes t) -> leaf_xor_internal x /\ compressed x) ->
  (node_count t + 1 <= 2 * length (points_of t))%nat.
Proof.
  induction t as [m r p|cs m r p IH] using Node_induction; intro H.
  - destruct (H _ (In_subnodes_self _)) as [Hl _].
    apply leaf_xor_internal_point in Hl; [|reflexivity].
    simpl in Hl. destruct p as [p|]; [|now contradiction Hl].
    unfold node_count. simpl. lia.
  - destruct (H _ (In_subnodes_self _)) as [_ Hc].
    specialize (Hc cs eq_refl).
    rewrite points_of_internal. unfold node_count. rewrite subnodes_internal.
    simpl length.
    pose proof (children_size cs) as Hs.
    assert (Hall : forall c, In (Some c) cs ->
                             (node_count c + 1 <= 2 * length (points_of c))%nat).
    { intros c Hin. apply (IH c Hin). intros x Hx. apply H.
      apply In_subnodes_internal. right. eauto. }
    specialize (Hs Hall). lia.
Qed.

(** X6. A tree built from [n >= 1] points with the default stop predicate
    has at most [2n - 1] nodes, however the points are spread: compression
    leaves no node with a single child. *)
Theorem built_size (dim fuel : nat) (pts : list Point) (range : nat -> Q)
        (root : Node) :
  pts <> [] ->
  CompressedQuadtree dim fuel pts range default_fn = Some root ->
  (node_count root <= 2 * length pts - 1)%nat.
Proof.
  intros Hne Hbuild.
  pose proof (compressed_size root) as Hs.
  rewrite (Permutation_length (worker_points dim _ _ _ _ _ _ Hbuild)) in Hs.
  assert (node_count root + 1 <= 2 * length pts)%nat; [|lia].
  apply Hs. intros x Hx. split.
  - exact (worker_leaf_xor_internal dim _ _ _ _ _ _ Hbuild x Hx).
  - exact (worker_compressed dim _ _ _ _ _ _ Hbuild Hne x Hx).
Qed.

Lemma built_size_witness : (node_count ex_root <= 2 * length ex_pts - 1)%nat.
Proof.
  apply (built_size 2 10 ex_pts ex_range ex_root).
  - discriminate.
  - vm_compute. reflexivity.
Defined.

(** ** Regions *)

Lemma worker_nested (dim : nat) (fn : EndBuildFn) (fuel : nat) (m : Point) (r : Q)
      (pts : list Point) (depth : nat) (t : Node) :
  worker dim fuel m r pts fn depth = Some t ->
  0 <= r ->
  forall x, In x (subnodes t) -> cube_in dim (mid x) (radius x) m r /\ 0 <= radius x.
Proof.
  revert fuel m r pts depth t.
  apply (worker_ind dim fn
           (fun m r pts depth t =>
              0 <= r ->
              forall x, In x (subnodes t) ->
                        cube_in dim (mid x) (radius x) m r /\ 0 <= radius x)).
  - intros m r p depth Hr x [<-|[]]. split; [apply cube_in_refl_copy|exact Hr].
  - intros m r pts depth _ _ Hr x [<-|[]]. split; [apply cube_in_refl_copy|exact Hr].
  - intros m r pts depth cs _ _ Hrel _ _ Hr x Hx.
    apply In_subnodes_internal in Hx. destruct Hx as [->|(c & Hc & Hx)].
    + split; [apply cube_in_refl_copy|exact Hr].
    + destruct (Forall2_In_r _ _ _ _ Hrel Hc) as (n & _ & _ & HP).
      assert (Hr2 : 0 <= r / 2) by (qhalf; lra).
      destruct (HP Hr2 x Hx) as [H1 H2]. split; [|exact H2].
      now apply (cube_in_slot dim _ _ m r n).
  - intros m r pts depth n c _ _ _ _ _ _ HP Hr x Hx.
    assert (Hr2 : 0 <= r / 2) by (qhalf; lra).
    destruct (HP Hr2 x Hx) as [H1 H2]. split; [|exact H2].
    now apply (cube_in_slot dim _ _ m r n).
  - intros m r depth _ Hr x Hx.
    apply In_subnodes_internal in Hx. destruct Hx as [->|(c & Hc & Hx)].
    + split; [apply cube_in_refl_copy|exact Hr].
    + apply repeat_spec in Hc. discriminate.
Qed.




Lemma ex_range_bounds : range_bounds 2 ex_range ex_pts.
Proof.
  intros p d Hp Hd. simpl in Hp.
  destruct d as [|[|d]]; [| |lia];
    repeat (destruct Hp as [<-|Hp]; [vm_compute; split; discriminate|]);
    contradiction.
Qed.


(** * Edge cases of the construction and of the search *)

Section FirstStep.

Variable dim : nat.
Context {heap : HeapAlgorithms}.
Variable uninit : Point -> Node -> nat -> Q.
Hypothesis heap_ok : heap_contract heap.

(** The first iteration of the search, on the queue that holds the root. *)
Lemma knn_root_step (root : Node) (k : nat) (q : Point) (eps : Q) :
  knn_step dim uninit k q eps [] (mkND root 0) [] =
  match nodes root with
  | None =>
      match pt root with
      | None => Crash NullPoint
      | Some np => Continue (add_result k (np, sqdist dim np q) []) []
      end
  | Some cs =>
      match kth_dist k [] with
      | None => Crash EmptyResult
      | Some kth =>
          if Qle_bool kth ((1 + eps) * 0) then Stop []
          else Continue [] (push_children dim uninit q kth cs [])
      end
  end.
Proof.
  destruct (knn_step_spec dim uninit heap_ok k q eps [] (mkND root 0) [] (is_heap_one _))
    as (v' & _ & Hp & ->).
  apply Permutation_sym, Permutation_nil in Hp. subst v'. reflexivity.
Qed.

Lemma knn_loop_empty_queue (fuel k : nat) (q : Point) (eps : Q) (qr : list (Point * Q)) :
  knn_loop dim uninit fuel k q eps qr [] = Ok (qr, QueueEmpty).
Proof. destruct fuel; reflexivity. Qed.

Lemma knn_leaf_root (root : Node) (p : Point) (fuel k : nat) (q : Point) (eps : Q) :
  nodes root = None -> pt root = Some p ->
  knn dim uninit (S fuel) root k q eps
  = Ok (if Nat.eqb k 0 then [] else [(p, sqdist dim p q)]).
Proof.
  intros Hn Hp. unfold knn. rewrite knn_loop_S, knn_root_step, Hn, Hp.
  rewrite knn_loop_empty_queue. destruct k; reflexivity.
Qed.

Lemma knn_stopped_root (root : Node) (fuel k : nat) (q : Point) (eps : Q) :
  nodes root = None -> pt root = None ->
  knn dim uninit (S fuel) root k q eps = Undefined NullPoint.
Proof.
  intros Hn Hp. unfold knn. rewrite knn_loop_S, knn_root_step, Hn, Hp. reflexivity.
Qed.

Lemma push_children_none (q : Point) (kth : Q) (n : nat) (pq : list NodeDistance) :
  push_children dim uninit q kth (repeat None n) pq = pq.
Proof. induction n; simpl; auto. Qed.

Lemma knn_childless_root (root : Node) (n : nat) (fuel k : nat) (q : Point) (eps : Q) :
  nodes root = Some (repeat None n) -> (1 <= k)%nat ->
  knn dim uninit (S fuel) root k q eps = Ok [].
Proof.
  intros Hn Hk. unfold knn. rewrite knn_loop_S, knn_root_step, Hn.
  unfold kth_dist. simpl length.
  destruct (Nat.ltb_spec 0 k) as [_|Hle]; [|lia].
  destruct (Qle_bool DBL_MAX ((1 + eps) * 0)) eqn:E.
  - apply Qle_bool_iff in E. exfalso.
    assert (H0 : (1 + eps) * 0 == 0) by ring. rewrite H0 in E.
    apply (Qlt_not_le _ _ DBL_MAX_pos E).
  - rewrite push_children_none, knn_loop_empty_queue. reflexivity.
Qed.

(** X11. With [k = 0] the search on a tree whose root has a children array
    reads [qr.back()] on the empty result list in its first iteration. *)
Theorem knn_zero_k (root : Node) (cs : list (option Node)) (fuel : nat)
        (q : Point) (eps : Q) :
  nodes root = Some cs ->
  knn dim uninit (S fuel) root 0 q eps = Undefined EmptyResult.
Proof.
  intro Hn. unfold knn. rewrite knn_loop_S, knn_root_step, Hn. reflexivity.
Qed.

End FirstStep.

Lemma collect_all_none (l : list nat) :
  collect (map (fun _ : nat => Some (@None Node)) l) = Some (repeat None (length l)).
Proof. induction l as [|a l IH]; simpl; [reflexivity|]. now rewrite IH. Qed.

Lemma first_present_repeat_none (n : nat) : first_present (repeat None n) = None.
Proof. induction n; simpl; auto. Qed.

Lemma worker_no_point (dim fuel : nat) (m : Point) (r : Q) (depth : nat) :
  worker dim (S fuel) m r [] default_fn depth
  = Some (mkNode (Some (repeat None (nnodes dim))) (map (coord m) (seq 0 dim)) r None).
Proof.
  simpl. rewrite collect_all_none, length_seq, first_present_repeat_none.
  destruct (Nat.ltb _ 2); reflexivity.
Qed.

(** X9. From a single point the constructor builds, whatever the stop
    predicate, one leaf that stores the point and carries the cube computed
    from the range; the search on it returns that point with its squared
    distance for every [k >= 1], query point and [eps], and the empty list
    for [k = 0]. *)
Theorem single_point_tree (dim : nat) (heap : HeapAlgorithms)
        (uninit : Point -> Node -> nat -> Q) (fn : EndBuildFn)
        (fuel0 : nat) (p : Point) (range : nat -> Q) :
  heap_contract heap ->
  exists root,
    CompressedQuadtree dim (S fuel0) [p] range fn = Some root /\
    nodes root = None /\ pt root = Some p /\
    mid root = root_mid dim range /\ radius root = root_radius dim range /\
    forall fuel k q eps,
      knn dim uninit (S fuel) root k q eps
      = Ok (if Nat.eqb k 0 then [] else [(p, sqdist dim p q)]).
Proof.
  intro heap_ok. eexists. split; [reflexivity|]. simpl.
  split; [reflexivity|]. split; [reflexivity|].
  split; [apply root_mid_copy|]. split; [reflexivity|].
  intros fuel k q eps. now apply knn_leaf_root.
Qed.

Lemma single_point_tree_witness :
  exists root,
    CompressedQuadtree 2 (S 0) [[3;4]] ex_range default_fn = Some root /\
    nodes root = None /\ pt root = Some [3;4] /\
    mid root = root_mid 2 ex_range /\ radius root = root_radius 2 ex_range /\
    forall fuel k q eps,
      @knn 2 sort_heap zero_uninit (S fuel) root k q eps
      = Ok (if Nat.eqb k 0 then [] else [([3;4], sqdist 2 [3;4] q)]).
Proof.
  apply (single_point_tree 2 sort_heap zero_uninit default_fn 0 [3;4] ex_range).
  exact sort_heap_contract.
Defined.

(** X10. From no point the constructor with the default stop predicate
    builds a root with [nnodes] null child slots and no point; the search
    on it returns the empty list for every [k >= 1]. *)
Theorem empty_tree (dim : nat) (heap : HeapAlgorithms)
        (uninit : Point -> Node -> nat -> Q) (fuel0 : nat) (range : nat -> Q) :
  heap_contract heap ->
  exists root,
    CompressedQuadtree dim (S fuel0) [] range default_fn = Some root /\
    nodes root = Some (repeat None (nnodes dim)) /\ pt root = None /\
    forall fuel k q eps,
      (1 <= k)%nat -> knn dim uninit (S fuel) root k q eps = Ok [].
Proof.
  intro heap_ok. eexists. split; [apply worker_no_point|].
  split; [reflexivity|]. split; [reflexivity|].
  intros fuel k q eps Hk.
  now apply (knn_childless_root dim uninit heap_ok _ (nnodes dim)).
Qed.

Lemma empty_tree_witness :
  exists root,
    CompressedQuadtree 2 (S 0) [] ex_range default_fn = Some root /\
    nodes root = Some (repeat None (nnodes 2)) /\ pt root = None /\
    forall fuel k q eps,
      (1 <= k)%nat -> @knn 2 sort_heap zero_uninit (S fuel) root k q eps = Ok [].
Proof.
  apply (empty_tree 2 sort_heap zero_uninit 0 ex_range). exact sort_heap_contract.
Defined.

Lemma knn_zero_k_witness :
  @knn 2 sort_heap zero_uninit (S 0) ex_root 0 [1;1] 0 = Undefined EmptyResult.
Proof.
  apply (knn_zero_k 2 zero_uninit sort_heap_contract ex_root (children ex_root)).
  reflexivity.
Defined.

(** X12. When the stop predicate holds of the root of a set of [n <> 1]
    points, the constructor returns a node with neither children nor
    point; the search takes it for a leaf and dereferences its null
    point. *)
Theorem stopped_root (dim : nat) (heap : HeapAlgorithms)
        (uninit : Point -> Node -> nat -> Q) (fn : EndBuildFn)
        (fuel0 : nat) (pts : list Point) (range : nat -> Q) :
  heap_contract heap ->
  length pts <> 1%nat ->
  fn (new_Node dim (root_mid dim range) (root_radius dim range)) 0%nat = true ->
  CompressedQuadtree dim (S fuel0) pts range fn
  = Some (new_Node dim (root_mid dim range) (root_radius dim range)) /\
  forall fuel k q eps,
    knn dim uninit (S fuel) (new_Node dim (root_mid dim range) (root_radius dim range))
        k q eps
    = Undefined NullPoint.
Proof.
  intros heap_ok Hlen Hfn. split.
  - unfold CompressedQuadtree. simpl.
    destruct (Nat.eqb_spec (length pts) 1) as [E|_]; [contradiction|].
    rewrite Hfn. reflexivity.
  - intros fuel k q eps. now apply knn_stopped_root.
Qed.

Lemma stopped_root_witness :
  CompressedQuadtree 2 (S 0) ex_pts ex_range (fun _ _ => true)
  = Some (new_Node 2 (root_mid 2 ex_range) (root_radius 2 ex_range)) /\
  forall fuel k q eps,
    @knn 2 sort_heap zero_uninit (S fuel)
         (new_Node 2 (root_mid 2 ex_range) (root_radius 2 ex_range)) k q eps
    = Undefined NullPoint.
Proof.
  apply (stopped_root 2 sort_heap zero_uninit (fun _ _ => true) 0 ex_pts ex_range).
  - exact sort_heap_contract.
  - simpl. lia.
  - reflexivity.
Defined.

(** * Further properties of the search *)

Lemma add_result_perm (k : nat) (x : Point * Q) (qr : list (Point * Q)) :
  exists drop,
    Permutation (map fst (add_result k x qr) ++ drop) (fst x :: map fst qr).
Proof.
  pose proof (Permutation_map fst (insert_result_perm x qr)) as Hp. simpl in Hp.
  unfold add_result. destruct (Nat.ltb k (length (insert_result x qr))).
  - destruct (exists_last (l := insert_result x qr)) as (l & z & E).
    { intro E. apply (f_equal (@length _)) in E. rewrite insert_result_length in E.
      discriminate. }
    rewrite E in *. rewrite removelast_last. exists [fst z].
    rewrite map_app in Hp. exact Hp.
  - exists []. now rewrite app_nil_r.
Qed.

Section ValidResults.

Variable dim : nat.
Context {heap : HeapAlgorithms}.
Variable uninit : Point -> Node -> nat -> Q.
Hypothesis heap_ok : heap_contract heap.

Lemma knn_loop_valid (k : nat) (q : Point) (eps : Q) (root : Node) (fuel : nat) :
  match knn_loop dim uninit fuel k q eps [] [mkND root 0] with
  | Ok (qr, _) =>
      (forall x, In x qr -> snd x = sqdist dim (fst x) q) /\
      exists rest, Permutation (map fst qr ++ rest) (points_of root)
  | _ => True
  end.
Proof.
  apply (knn_loop_invariant dim uninit k q eps (valid_inv dim q root)
           (fun out => match out with
                       | Ok (qr, _) =>
                           (forall x, In x qr -> snd x = sqdist dim (fst x) q) /\
                           exists rest, Permutation (map fst qr ++ rest) (points_of root)
                       | _ => True
                       end)); auto.
  - intros qr (_ & Hd & rest & Hp). split; [exact Hd|].
    exists rest. unfold queue_pts in Hp. simpl in Hp. now rewrite app_nil_r in Hp.
  - intros qr x v (Hh & Hd & rest & Hp).
    pose proof (knn_step_cases dim uninit heap_ok k q eps qr x v Hh) as Hc.
    destruct (knn_step dim uninit k q eps qr x v) as [qr' pq'|qr'|f]; auto.
    + destruct Hc as [Hh' [(np & En & Ep & -> & Hq)|(cs & kth & En & _ & _ & -> & Hq)]];
        (split; [exact Hh'|]).
      * split.
        { intros y Hy. apply add_result_In in Hy. destruct Hy as [->|Hy]; auto. }
        destruct (add_result_perm k (np, sqdist dim np q) qr) as (drop & Hdrop).
        simpl in Hdrop. exists (drop ++ rest).
        rewrite (queue_pts_perm _ _ Hq), <- Hp.
        unfold queue_pts at 2. simpl. rewrite (points_of_leaf _ _ En Ep).
        fold (queue_pts v).
        transitivity ((map fst (add_result k (np, sqdist dim np q) qr) ++ drop)
                        ++ rest ++ queue_pts v); [aac_reflexivity|].
        rewrite Hdrop. simpl. rewrite !app_assoc. apply Permutation_middle.
      * split; [exact Hd|].
        exists (rest ++ pruned dim uninit q kth cs).
        rewrite (queue_pts_perm _ _ Hq), queue_pts_app, <- Hp.
        unfold queue_pts at 3. simpl. fold (queue_pts v).
        rewrite (points_of_node _ _ En), (children_split dim uninit q kth cs).
        aac_reflexivity.
    + destruct Hc as [-> _]. split; [exact Hd|].
      exists (rest ++ queue_pts (x :: v)). exact Hp.
  - split; [apply is_heap_one|]. split; [intros x []|].
    exists []. unfold queue_pts. simpl. now rewrite app_nil_r.
Qed.

End ValidResults.

(** X13. On every tree and for every [k], query point and [eps], each
    entry of the list that [knn] returns is a point stored in the tree
    with its squared distance to the query point, and no stored point is
    returned more often than it is stored. *)
Theorem knn_results_valid (dim : nat) (heap : HeapAlgorithms)
        (uninit : Point -> Node -> nat -> Q)
        (root : Node) (k : nat) (q : Point) (eps : Q) (fuel : nat)
        (qr : list (Point * Q)) :
  heap_contract heap ->
  knn dim uninit fuel root k q eps = Ok qr ->
  (forall x, In x qr ->
             In (fst x) (points_of root) /\ snd x = sqdist dim (fst x) q) /\
  exists rest, Permutation (map fst qr ++ rest) (points_of root).
Proof.
  intros heap_ok H. unfold knn in H.
  pose proof (knn_loop_valid dim uninit heap_ok k q eps root fuel) as Hv.
  destruct (knn_loop dim uninit fuel k q eps [] [mkND root 0]) as [[qr' e]|f|];
    try discriminate.
  injection H as ->. destruct Hv as [Hd (rest & Hp)].
  split; [|eauto]. intros x Hx. split; [|now apply Hd].
  apply (Permutation_in _ Hp), in_or_app. left. now apply in_map.
Qed.

Lemma knn_results_valid_witness :
  (forall x : Point * Q, In x [([5;5], 1)] ->
             In (fst x) (points_of ex_root) /\ snd x = sqdist 2 (fst x) [5;4]) /\
  exists rest, Permutation (map fst [(([5;5] : Point), 1)] ++ rest) (points_of ex_root).
Proof.
  apply (knn_results_valid 2 sort_heap zero_uninit ex_root 1 [5;4] (1 # 2) 20).
  - exact sort_heap_contract.
  - vm_compute. reflexivity.
Defined.

(** X14. [min_pt_dist_to_node] never returns a negative value, whatever the
    content of the unassigned [dist]. *)
Theorem min_pt_dist_nonneg (dim : nat) (uninit : Point -> Node -> nat -> Q)
        (p : Point) (nd : Node) :
  0 <= min_pt_dist_to_node dim uninit p nd.
Proof.
  rewrite min_pt_dist_to_node_eq.
  destruct (forallb (fun d => negb (outside nd p d)) (seq 0 dim)); [apply Qle_refl|].
  cbv zeta. nra.
Qed.



(** X16. The leaf branch inserts a candidate after the entries that are
    strictly nearer and before the first entry that is not: in a sorted
    result list it goes in front of the entries at its own distance. *)
Theorem insert_result_position (x : Point * Q) (qr : list (Point * Q)) :
  exists l1 l2,
    qr = l1 ++ l2 /\ insert_result x qr = l1 ++ x :: l2 /\
    (forall y, In y l1 -> snd y < snd x) /\
    (forall y, hd_error l2 = Some y -> snd x <= snd y) /\
    (StronglySorted le_snd qr -> forall y, In y l2 -> snd x <= snd y).
Proof.
  induction qr as [|y qr (l1 & l2 & E & Ei & H1 & H2 & H3)]; simpl.
  - exists [], []. split; [reflexivity|]. split; [reflexivity|].
    split; [intros z []|]. split; [discriminate|]. intros _ z [].
  - destruct (Qltb (snd y) (snd x)) eqn:Ey.
    + apply Qltb_lt in Ey. exists (y :: l1), l2. simpl. rewrite Ei.
      split; [now rewrite <- E|]. split; [reflexivity|].
      split; [intros z [<-|Hz]; auto|]. split; [exact H2|].
      intros Hs. inversion Hs; subst. auto.
    + apply Qltb_ge in Ey. exists [], (y :: qr).
      split; [reflexivity|]. split; [reflexivity|].
      split; [intros z []|]. split.
      * intros z Hz. injection Hz as <-. exact Ey.
      * intros Hs z [<-|Hz]; [exact Ey|].
        inversion Hs as [|? ? _ Hall]; subst. rewrite Forall_forall in Hall.
        specialize (Hall z Hz). unfold le_snd in Hall. lra.
Qed.

Lemma insert_result_position_witness :
  exists l1 l2 : list (Point * Q),
    [([0], 1); ([1], 2); ([2], 2); ([3], 5)] = l1 ++ l2 /\
    insert_result ([9], 2) [([0], 1); ([1], 2); ([2], 2); ([3], 5)] = l1 ++ ([9], 2) :: l2 /\
    (forall y, In y l1 -> snd y < snd (([9], 2) : Point * Q)) /\
    (forall y, hd_error l2 = Some y -> snd (([9], 2) : Point * Q) <= snd y) /\
    (StronglySorted le_snd [([0], 1); ([1], 2); ([2], 2); ([3], 5)] ->
     forall y, In y l2 -> snd (([9], 2) : Point * Q) <= snd y).
Proof.
  apply (insert_result_position ([9], 2) [([0], 1); ([1], 2); ([2], 2); ([3], 5)]).
Defined.

(** ** The approximate search *)

Lemma subnodes_trans (t x : Node) :
  In x (subnodes t) -> incl (subnodes x) (subnodes t).
Proof.
  induction t as [m r p|cs m r p IH] using Node_induction; intro Hx.
  - destruct Hx as [<-|[]]. apply incl_refl.
  - apply In_subnodes_internal in Hx. destruct Hx as [->|(c & Hc & Hx)].
    + apply incl_refl.
    + intros y Hy. apply In_subnodes_internal. right. exists c.
      split; [exact Hc|]. now apply (IH c Hc Hx).
Qed.

Lemma scale_le (eps a b : Q) : 0 <= eps -> a <= b -> (1 + eps) * a <= (1 + eps) * b.
Proof. intros. nra. Qed.

Lemma scale_ge (eps a : Q) : 0 <= eps -> 0 <= a -> a <= (1 + eps) * a.
Proof. intros. nra. Qed.

Lemma nearest_within_perm (dim : nat) (q : Point) (k : nat) (eps : Q)
      (qr : list (Point * Q)) (a b : list Point) :
  Permutation a b -> nearest_within dim q k eps qr a -> nearest_within dim q k eps qr b.
Proof.
  intros Hp (dropped & H1 & H2 & H3). exists dropped.
  split; [now rewrite H1|]. auto.
Qed.

Lemma nearest_within_prune (dim : nat) (q : Point) (k : nat) (eps : Q)
      (qr : list (Point * Q)) (seen extra : list Point) :
  (forall r, In r extra ->
             length qr = k /\ forall x, In x qr -> snd x <= (1 + eps) * sqdist dim r q) ->
  nearest_within dim q k eps qr seen ->
  nearest_within dim q k eps qr (seen ++ extra).
Proof.
  intros He (dropped & H1 & H2 & H3). exists (dropped ++ extra). split; [|split].
  - rewrite <- H1. aac_reflexivity.
  - intro Hne. destruct dropped as [|d dropped]; [|apply H2; discriminate].
    destruct extra as [|e extra]; [now contradiction Hne|].
    apply (He e). now left.
  - intros r x Hr Hx. apply in_app_or in Hr. destruct Hr as [Hr|Hr].
    + now apply H3.
    + now apply (He r Hr).
Qed.

Lemma nearest_within_add (dim : nat) (q : Point) (k : nat) (eps : Q)
      (qr : list (Point * Q)) (seen : list Point) (np : Point) :
  0 <= eps ->
  StronglySorted le_snd qr -> (length qr <= k)%nat ->
  (forall x, In x qr -> snd x = sqdist dim (fst x) q) ->
  nearest_within dim q k eps qr seen ->
  nearest_within dim q k eps (add_result k (np, sqdist dim np q) qr) (np :: seen).
Proof.
  intros Heps Hs Hle Hd (dropped & H1 & H2 & H3).
  pose proof (Permutation_map fst (insert_result_perm (np, sqdist dim np q) qr)) as Hins.
  simpl in Hins.
  destruct (add_result_cases k (np, sqdist dim np q) qr Hs Hle)
    as [[Hlt ->]|(Hk & z & Ez & Hz)].
  - assert (dropped = []) as ->.
    { destruct dropped; [reflexivity|]. assert (length qr = k) by (apply H2; discriminate).
      lia. }
    exists []. split; [|split].
    + rewrite Hins, <- H1. reflexivity.
    + intro H. now contradiction H.
    + intros r x [].
  - pose proof (add_result_length k (np, sqdist dim np q) qr Hle) as Hlen.
    set (qr' := add_result k (np, sqdist dim np q) qr) in *.
    assert (Hinz : In z ((np, sqdist dim np q) :: qr)).
    { apply (Permutation_in _ (insert_result_perm _ qr)). rewrite Ez.
      apply in_or_app. right. now left. }
    assert (Hdz : snd z = sqdist dim (fst z) q).
    { destruct Hinz as [<-|Hinz]; [reflexivity|now apply Hd]. }
    exists (fst z :: dropped). split; [|split].
    + rewrite Ez, map_app in Hins. simpl in Hins.
      change (fst z :: dropped) with ([fst z] ++ dropped).
      change (np :: seen) with ([np] ++ seen).
      change (np :: map fst qr) with ([np] ++ map fst qr) in Hins.
      rewrite <- H1. rewrite app_assoc, Hins. aac_reflexivity.
    + intros _. lia.
    + intros r x [<-|Hr] Hx.
      * apply Qle_trans with (snd z); [now apply Hz|]. rewrite Hdz.
        apply scale_ge; [exact Heps|apply sqdist_nonneg].
      * destruct Hinz as [<-|Hinz].
        -- assert (Hp : Permutation qr qr').
           { pose proof (insert_result_perm (np, sqdist dim np q) qr) as Hp.
             rewrite Ez in Hp. apply Permutation_sym in Hp.
             apply Permutation_cons_app_inv in Hp. now rewrite app_nil_r in Hp. }
           apply (H3 r x Hr). apply (Permutation_in _ (Permutation_sym Hp) Hx).
        -- apply Qle_trans with (snd z); [now apply Hz|now apply H3].
Qed.

Section ApproxLoop.

Variable dim : nat.
Context {heap : HeapAlgorithms}.
Variable uninit : Point -> Node -> nat -> Q.
Hypothesis heap_ok : heap_contract heap.
Variables (k : nat) (q : Point) (eps : Q) (root : Node).

Hypothesis uninit_nonneg : forall nd d, 0 <= uninit q nd d.
Hypothesis eps_nonneg : 0 <= eps.
Hypothesis root_sound :
  forall x p, In x (subnodes root) -> In p (points_of x) -> in_region dim x p.
Hypothesis root_points :
  forall x, In x (subnodes root) -> nodes x = None -> pt x <> None.
Hypothesis root_children :
  forall x cs c, In x (subnodes root) -> nodes x = Some cs -> In (Some c) cs ->
                 points_of c <> [].
Hypothesis root_finite :
  forall p, In p (points_of root) -> (1 + eps) * sqdist dim p q < DBL_MAX.
Hypothesis k_pos : (1 <= k)%nat.

Lemma approx_child_bound (x c : Node) (cs : list (option Node)) (p : Point) :
  incl (subnodes x) (subnodes root) -> nodes x = Some cs -> In (Some c) cs ->
  In p (points_of c) ->
  min_pt_dist_to_node dim uninit q c <= sqdist dim p q.
Proof.
  intros Hx En Hc Hp. apply min_pt_dist_sound; [apply uninit_nonneg|].
  apply root_sound; [|exact Hp].
  apply Hx, (subnodes_child _ _ _ En Hc), In_subnodes_self.
Qed.

Lemma approx_step (qr : list (Point * Q)) (x : NodeDistance) (v : list NodeDistance) :
  approx_inv dim q k eps root qr (x :: v) ->
  match knn_step dim uninit k q eps qr x v with
  | Continue qr' pq' => approx_inv dim q k eps root qr' pq'
  | Stop qr' => approx_post dim q k eps root qr'
  | Crash _ => False
  end.
Proof.
  intros (Hh & Hs & Hle & Hd & Hq & seen & Hperm & Hnear).
  pose proof (knn_step_cases dim uninit heap_ok k q eps qr x v Hh) as Hc.
  destruct (Hq x (or_introl eq_refl)) as (Hxin & Hxmax & Hxlow).
  assert (Hroot : forall nd p, In nd (x :: v) -> In p (points_of (node nd)) ->
                               In p (points_of root)).
  { intros nd p Hnd Hp. apply (Permutation_in _ Hperm), in_or_app. right.
    unfold queue_pts. apply in_flat_map. eauto. }
  destruct (knn_step dim uninit k q eps qr x v) as [qr' pq'|qr'|f].
  - destruct Hc as [Hh' [(np & En & Ep & -> & Hp)|(cs & kth & En & Ek & Hnle & -> & Hp)]].
    + (* leaf *)
      split; [exact Hh'|]. split; [now apply add_result_sorted|].
      split; [rewrite add_result_length by exact Hle; lia|].
      split.
      { intros y Hy. apply add_result_In in Hy. destruct Hy as [->|Hy]; auto. }
      split.
      { intros nd Hnd. apply Hq. right. apply (Permutation_in _ Hp Hnd). }
      exists (np :: seen). split; [|now apply nearest_within_add].
      rewrite (queue_pts_perm _ _ Hp), <- Hperm.
      unfold queue_pts at 2. simpl. rewrite (points_of_leaf _ _ En Ep).
      fold (queue_pts v). apply Permutation_middle.
    + (* internal node, children pushed *)
      pose proof (kth_dist_cases k qr kth Hs Hle k_pos Ek) as Hkth.
      assert (Hchild : forall c r, In (Some c) cs -> In r (points_of c) ->
                                   In r (points_of root)).
      { intros c r Hcin Hr. apply (Hroot x r (or_introl eq_refl)).
        rewrite (points_of_node _ _ En). apply in_flat_map. exists (Some c). auto. }
      split; [exact Hh'|]. split; [exact Hs|]. split; [exact Hle|]. split; [exact Hd|].
      split.
      { intros nd Hnd. apply (Permutation_in _ Hp), in_app_or in Hnd.
        destruct Hnd as [Hnd|Hnd]; [apply Hq; now right|].
        apply In_pushed in Hnd. destruct Hnd as (Hcin & Hdist & Hlt).
        split; [|split].
        - intros y Hy. apply Hxin, (subnodes_child _ _ _ En Hcin y Hy).
        - assert (Hne : points_of (node nd) <> []).
          { apply (root_children (node x) cs); auto. apply Hxin, In_subnodes_self. }
          destruct (points_of (node nd)) as [|p0 l0] eqn:Epts; [now contradiction Hne|].
          assert (Hp0 : In p0 (points_of (node nd))) by (rewrite Epts; now left).
          pose proof (approx_child_bound (node x) _ cs p0 Hxin En Hcin Hp0) as Hb.
          pose proof (root_finite p0 (Hchild _ _ Hcin Hp0)) as Hf.
          rewrite Hdist.
          apply Qle_lt_trans with ((1 + eps) * sqdist dim p0 q); [|exact Hf].
          now apply scale_le.
        - intros p Hp'. rewrite Hdist. now apply (approx_child_bound (node x) _ cs). }
      exists (seen ++ pruned dim uninit q kth cs). split.
      * rewrite (queue_pts_perm _ _ Hp), queue_pts_app, <- Hperm.
        unfold queue_pts at 3. simpl. fold (queue_pts v).
        rewrite (points_of_node _ _ En), (children_split dim uninit q kth cs).
        aac_reflexivity.
      * apply nearest_within_prune; [|exact Hnear].
        intros r Hr. apply In_pruned in Hr. destruct Hr as (c & Hcin & Hrc & Hge).
        pose proof (approx_child_bound (node x) c cs r Hxin En Hcin Hrc) as Hlow.
        pose proof (root_finite r (Hchild _ _ Hcin Hrc)) as Hfin.
        pose proof (scale_ge eps _ eps_nonneg (sqdist_nonneg dim r q)) as Hsc.
        destruct Hkth as [[_ ->]|(Hk & _ & Hall)].
        { exfalso. apply (Qlt_irrefl DBL_MAX).
          apply Qle_lt_trans with ((1 + eps) * sqdist dim r q); [|exact Hfin].
          apply Qle_trans with (sqdist dim r q); [|exact Hsc].
          apply Qle_trans with (min_pt_dist_to_node dim uninit q c); assumption. }
        split; [exact Hk|]. intros y Hy. specialize (Hall y Hy).
        apply Qle_trans with (sqdist dim r q); [|exact Hsc].
        apply Qle_trans with kth; [exact Hall|].
        apply Qle_trans with (min_pt_dist_to_node dim uninit q c); assumption.
  - (* break *)
    destruct Hc as (-> & cs & kth & En & Ek & Hstop).
    pose proof (kth_dist_cases k qr kth Hs Hle k_pos Ek) as Hkth.
    destruct Hkth as [[_ ->]|(Hk & _ & Hall)].
    { exfalso. apply (Qlt_irrefl DBL_MAX). now apply Qle_lt_trans with ((1 + eps) * distance x). }
    split; [exact Hs|]. split; [exact Hle|]. split; [exact Hd|].
    apply (nearest_within_perm dim q k eps qr _ _ Hperm).
    apply nearest_within_prune; [|exact Hnear].
    intros r Hr. split; [exact Hk|]. intros y Hy. specialize (Hall y Hy).
    unfold queue_pts in Hr. apply in_flat_map in Hr. destruct Hr as (nd & Hnd & Hr).
    destruct (Hq nd Hnd) as (_ & _ & Hlow). specialize (Hlow r Hr).
    assert (Hmin : distance x <= distance nd).
    { destruct Hnd as [<-|Hnd]; [apply Qle_refl|now apply (heap_root_min x v Hh)]. }
    apply Qle_trans with kth; [exact Hall|].
    apply Qle_trans with ((1 + eps) * distance x); [exact Hstop|].
    apply scale_le; [exact eps_nonneg|].
    now apply Qle_trans with (distance nd).
  - destruct f.
    + destruct Hc as [En Ep]. apply (root_points (node x)); auto.
      apply Hxin, In_subnodes_self.
    + destruct Hc as [_ Hn]. destruct (kth_dist_defined k qr k_pos) as [kth Hkth].
      congruence.
Qed.

Lemma approx_loop (fuel : nat) :
  match knn_loop dim uninit fuel k q eps [] [mkND root 0] with
  | Ok (qr, _) => approx_post dim q k eps root qr
  | Undefined _ => False
  | OutOfFuel => True
  end.
Proof.
  apply (knn_loop_invariant dim uninit k q eps (approx_inv dim q k eps root)
           (fun out => match out with
                       | Ok (qr, _) => approx_post dim q k eps root qr
                       | Undefined _ => False
                       | OutOfFuel => True
                       end)); auto.
  - intros qr (_ & Hs & Hle & Hd & _ & seen & Hperm & Hnear).
    split; [exact Hs|]. split; [exact Hle|]. split; [exact Hd|].
    apply (nearest_within_perm dim q k eps qr seen); [|exact Hnear].
    rewrite <- Hperm. unfold queue_pts. simpl. now rewrite app_nil_r.
  - intros qr x v Hinv. pose proof (approx_step qr x v Hinv) as H.
    destruct (knn_step dim uninit k q eps qr x v); auto.
  - split; [apply is_heap_one|]. split; [constructor|]. split; [simpl; lia|].
    split; [intros x []|]. split.
    + intros nd [<-|[]]. simpl. split; [apply incl_refl|].
      split.
      * assert (H0 : (1 + eps) * 0 == 0) by ring. rewrite H0. apply DBL_MAX_pos.
      * intros p _. apply sqdist_nonneg.
    + exists []. split.
      * unfold queue_pts. simpl. now rewrite app_nil_r.
      * exists []. split; [reflexivity|]. split; [intro H; now contradiction H|].
        intros r x [].
Qed.

End ApproxLoop.


